(** * seqan_align: the row reconstruction of [align] and the alignment engine

    [align] (seqan_align.cpp) hands the caller's sequences to SeqAn's
    [globalMsaAlignment] and then rebuilds, for every row of the alignment,
    a freshly allocated C string in which gap columns are written as '-' and
    every other column is copied from the caller's original string.  The
    pointer array it was given is updated in place and returned.

    The embedding keeps the pointer structure of the C++ code: a heap of
    blocks (byte blocks for C strings, pointer blocks for [char **]), a
    state-and-failure monad over it, and loops written with an explicit
    counter.  Failure ([None]) stands for undefined behaviour: an access
    outside a block or through a pointer of the wrong kind.

    SeqAn itself is not part of the repository.  [align] and [main] take
    the library call and the character conversion as arguments; the
    progressive engine that the specification describes is modelled
    separately (module [Engine]) and plugged in where a property is about
    a concrete alignment. *)

From Stdlib Require Import ZArith Ascii String Lia.
From stdpp Require Import gmap list fin_maps strings.

Local Open Scope Z_scope.

(** ** Alphabet *)

(** SeqAn's [Dna5]: the values 0..4 stand for A, C, G, T, N. *)
Inductive Dna5 : Set := Dna5A | Dna5C | Dna5G | Dna5T | Dna5N.

#[global] Instance Dna5_eq_dec : EqDecision Dna5.
Proof. solve_decision. Defined.

Definition ordValue (d : Dna5) : N :=
  match d with
  | Dna5A => 0 | Dna5C => 1 | Dna5G => 2 | Dna5T => 3 | Dna5N => 4
  end%N.

(** [dna5_base_to_char]: the switch over [(int)dna5_base]. *)
Definition dna5_base_to_char (dna5_base : ascii) : ascii :=
  match N_of_ascii dna5_base with
  | 0 => "A"
  | 1 => "C"
  | 2 => "G"
  | 3 => "T"
  | 4 => "N"
  | _ => "?"
  end%N%char.

(** Modelled from the spec: the Alphabet Codec's fixed lookup table from
    ASCII to the nucleotide alphabet, which [assignSource] applies; the
    table is SeqAn's and not in the repository.  The specification says no
    more than that it is a fixed table; the entries here are those of
    SeqAn's Dna5: the inverse of [dna5_base_to_char] on the five letters,
    lower case read like upper case, every other symbol read as N. *)
Definition char_to_dna5 (c : ascii) : Dna5 :=
  match c with
  | "A" | "a" => Dna5A
  | "C" | "c" => Dna5C
  | "G" | "g" => Dna5G
  | "T" | "t" => Dna5T
  | _ => Dna5N
  end%char.

(** The symbols of a Sequence of the data model. *)
Definition nucleotide (c : ascii) : Prop :=
  c = "A"%char ∨ c = "C"%char ∨ c = "G"%char ∨ c = "T"%char ∨ c = "N"%char.

#[global] Instance nucleotide_dec c : Decision (nucleotide c).
Proof. unfold nucleotide. apply _. Defined.

Definition NUL : ascii := "000"%char.
Definition gap_char : ascii := "-"%char.

(** A row of the alignment as [align] sees it through [length] and
    [isGap]: one entry per column, [None] for a gap column. *)
Abbreviation TRow := (list (option Dna5)).

Definition isGap (arow : TRow) (j : Z) : bool :=
  match arow !! Z.to_nat j with
  | Some None => true
  | _ => false
  end.

(** Number of columns of a row that are not gaps. *)
Fixpoint ungapped_len (arow : TRow) : nat :=
  match arow with
  | [] => 0
  | None :: r => ungapped_len r
  | Some _ :: r => S (ungapped_len r)
  end.

(** The row with its gap columns removed. *)
Fixpoint ungapped (arow : TRow) : list Dna5 :=
  match arow with
  | [] => []
  | None :: r => ungapped r
  | Some d :: r => d :: ungapped r
  end.

(** ** Machine integers *)

Definition INT_MAX : Z := 2147483647.

(** The cast [(int)x] of an unsigned size: wrap-around into 32 bits. *)
Definition to_int (z : Z) : Z := (z + 2 ^ 31) mod 2 ^ 32 - 2 ^ 31.

(** ** Memory *)

Abbreviation loc := positive.

(** A block is a [char] array or an array of [char *]. *)
Inductive block : Set :=
  | Bytes (bs : list ascii)
  | Ptrs (ps : list loc).

Abbreviation heap := (gmap loc block).

(** State and failure. *)
Definition M (A : Type) : Type := heap → option (A * heap).

Definition ret {A} (a : A) : M A := λ h, Some (a, h).

Definition bind {A B} (m : M A) (k : A → M B) : M B :=
  λ h, match m h with
       | Some (a, h') => k a h'
       | None => None
       end.

Definition fail {A} : M A := λ _, None.

Notation "x <- m ;; k" := (bind m (λ x, k))
  (at level 100, m at next level, right associativity).
Notation "m ;;; k" := (bind m (λ _, k))
  (at level 100, right associativity).

(** [a[i]] for [char **a]. *)
Definition load_ptr (a : loc) (i : Z) : M loc := λ h,
  match h !! a with
  | Some (Ptrs ps) =>
      if decide (0 ≤ i) then
        match ps !! Z.to_nat i with
        | Some p => Some (p, h)
        | None => None
        end
      else None
  | _ => None
  end.

(** [a[i] = p] for [char **a]. *)
Definition store_ptr (a : loc) (i : Z) (p : loc) : M unit := λ h,
  match h !! a with
  | Some (Ptrs ps) =>
      if decide (0 ≤ i ∧ (Z.to_nat i < length ps)%nat)
      then Some (tt, <[a := Ptrs (<[Z.to_nat i := p]> ps)]> h)
      else None
  | _ => None
  end.

(** [s[i]] for [char *s]. *)
Definition load_char (s : loc) (i : Z) : M ascii := λ h,
  match h !! s with
  | Some (Bytes bs) =>
      if decide (0 ≤ i) then
        match bs !! Z.to_nat i with
        | Some c => Some (c, h)
        | None => None
        end
      else None
  | _ => None
  end.

(** [s[i] = c] for [char *s]. *)
Definition store_char (s : loc) (i : Z) (c : ascii) : M unit := λ h,
  match h !! s with
  | Some (Bytes bs) =>
      if decide (0 ≤ i ∧ (Z.to_nat i < length bs)%nat)
      then Some (tt, <[s := Bytes (<[Z.to_nat i := c]> bs)]> h)
      else None
  | _ => None
  end.

(** [malloc(size)]: a block at an address that no live block has; the
    allocation is taken to succeed.  The bytes of the new block are
    indeterminate in C; [align] writes every one of them before it is
    read, and the model fills them with NUL. *)
Definition malloc (size : Z) : M loc := λ h,
  let p := fresh (dom h) in
  Some (p, <[p := Bytes (replicate (Z.to_nat size) NUL)]> h).

(** The characters of a [char] array up to its terminating NUL. *)
Fixpoint c_str (bs : list ascii) : option (list ascii) :=
  match bs with
  | [] => None
  | c :: bs' =>
      if decide (c = NUL) then Some []
      else match c_str bs' with
           | Some s => Some (c :: s)
           | None => None
           end
  end.

(** Reading the C string a pointer points to. *)
Definition load_cstr (p : loc) : M (list ascii) := λ h,
  match h !! p with
  | Some (Bytes bs) =>
      match c_str bs with
      | Some s => Some (s, h)
      | None => None
      end
  | _ => None
  end.

(** [for (int i = from; ...; i++)] run [n] times over a loop state. *)
Fixpoint for_from {S : Type} (i : Z) (n : nat) (body : Z → S → M S) (s : S) : M S :=
  match n with
  | O => ret s
  | Datatypes.S n' => s' <- body i s ;; for_from (i + 1) n' body s'
  end.

(** ** The program *)

Section Program.

(** SeqAn's [globalMsaAlignment(align, EditDistanceScore())]: from the
    sources of the rows to the rows with their gaps. *)
Variable globalMsaAlignment : list (list Dna5) → list TRow.

(** The conversion from [char] to [Dna5] used by [assignSource]. *)
Variable convert : ascii → Dna5.

(** [assignSource(row(align, i), seqs[i])]: the C string converted to a
    [String<Dna5>]. *)
Definition assignSource (seqs : loc) (i : Z) : M (list Dna5) :=
  p <- load_ptr seqs i ;;
  s <- load_cstr p ;;
  ret (map convert s).

(** [row(align, i)]. *)
Definition row (rows : list TRow) (i : Z) : M TRow := λ h,
  match rows !! Z.to_nat i with
  | Some arow => Some (arow, h)
  | None => None
  end.

(** The body of the loop over [j]: one column of the row. *)
Definition column (arow : TRow) (seqs : loc) (i : Z) (new_seq : loc)
    (j : Z) (offset : Z) : M Z :=
  if isGap arow j then
    store_char new_seq j gap_char ;;;
    ret (offset - 1)
  else
    p <- load_ptr seqs i ;;
    c <- load_char p (j + offset) ;;
    store_char new_seq j c ;;;
    ret offset.

(** The body of the loop over [i] in the branch [activity == 'r']. *)
Definition rebuild_row (rows : list TRow) (seqs : loc) (i : Z) : M unit :=
  arow <- row rows i ;;
  let len := to_int (Z.of_nat (length arow)) in
  new_seq <- malloc (len + 1) ;;
  for_from 0 (Z.to_nat len) (column arow seqs i new_seq) 0 ;;;
  store_char new_seq len NUL ;;;
  store_ptr seqs i new_seq.

(** Row reconstruction: the loop over the rows of the alignment. *)
Definition rebuild_rows (rows : list TRow) (nseq : Z) (seqs : loc) : M unit :=
  for_from 0 (Z.to_nat nseq) (λ i _, rebuild_row rows seqs i) tt.

(** [char **align(int nseq, char *seqs[])].  [activity] is the constant
    'r', so only that branch is taken.  A negative [nseq] makes
    [resize(rows(align), nseq)] ask for an absurd size: failure. *)
Definition align (nseq : Z) (seqs : loc) : M loc :=
  if decide (nseq < 0) then fail else
  sources <- for_from 0 (Z.to_nat nseq)
               (λ i acc, src <- assignSource seqs i ;; ret (acc ++ [src])) [] ;;
  let rows := globalMsaAlignment sources in
  rebuild_rows rows nseq seqs ;;;
  ret seqs.

(** [int main(int argc, char *argv[])]: the exit status and the lines
    written to standard output. *)
Definition main (argc : Z) (argv : loc) : M (Z * list (list ascii)) :=
  for_from 1 (Z.to_nat (argc - 1))
    (λ i _, p <- load_ptr argv i ;; store_ptr argv (i - 1) p) tt ;;;
  aligned_seqs <- align (argc - 1) argv ;;
  out <- for_from 0 (Z.to_nat (argc - 1))
           (λ i out, p <- load_ptr aligned_seqs i ;;
                     s <- load_cstr p ;;
                     ret (out ++ [s])) [] ;;
  ret (0, out).

End Program.

(** ** The alignment engine of the specification

    [globalMsaAlignment] is SeqAn code.  The design document replaces it
    by a progressive aligner built on unit-cost edit distance; this module
    follows its sections 4.1 to 4.3. *)

Module Engine.

(** Modelled from the spec: the operations of an Edit Script (section 3). *)
Inductive EditOp : Set := Match | Substitution | Insertion | Deletion.

#[global] Instance EditOp_eq_dec : EqDecision EditOp.
Proof. solve_decision. Defined.

(** Modelled from the spec: the unit costs of section 4.1; a match is
    free, every other operation costs 1. *)
Definition op_cost (o : EditOp) : nat :=
  match o with
  | Match => 0
  | Substitution | Insertion | Deletion => 1
  end.

(** Modelled from the spec: the cost of a script, the sum of the costs
    of its operations. *)
Fixpoint script_cost (s : list EditOp) : nat :=
  match s with
  | [] => 0%nat
  | o :: s' => (op_cost o + script_cost s')%nat
  end.

(** Modelled from the spec: the output of one pairwise alignment, the
    Distance Score and the Edit Script in forward order. *)
Record Alignment : Set := { distance : nat; script : list EditOp }.

Section Pairwise.
Context {X : Type} `{EqDecision X}.

(** Modelled from the spec: mismatchCost of the recurrence, 0 for equal
    symbols and 1 otherwise. *)
Definition mismatchCost (x y : X) : nat := if decide (x = y) then 0%nat else 1%nat.

(** The minimum of the three predecessors: diagonal, vertical,
    horizontal. *)
Definition min3 (d v h : nat) : nat := Nat.min d (Nat.min v h).

(** Modelled from the spec: what it means for [s] to be an edit script
    transforming [A] into [B].  A match consumes one symbol of each, the
    two being equal; a substitution one of each, the two being different;
    a deletion a symbol of [A] only; an insertion a symbol of [B] only. *)
Fixpoint valid_script (s : list EditOp) (A B : list X) : bool :=
  match s, A, B with
  | [], [], [] => true
  | Match :: s', a :: A', b :: B' => bool_decide (a = b) && valid_script s' A' B'
  | Substitution :: s', a :: A', b :: B' => bool_decide (a ≠ b) && valid_script s' A' B'
  | Deletion :: s', a :: A', _ => valid_script s' A' B
  | Insertion :: s', _, b :: B' => valid_script s' A B'
  | _, _, _ => false
  end.

(** Modelled from the spec: the dynamic-programming table of section
    4.1, built row by row.  Row 0 holds the base cases cell(0,j) = j. *)
Definition first_row (n : nat) : list nat := seq 0 (S n).

(** Modelled from the spec: the recurrence, along one row.  The result is
    the cells 1..n of row i; [prev] holds the cells 1..n of row i-1,
    [diag] is cell(i-1,j-1) and [left] is cell(i,j-1). *)
Fixpoint next_cells (a : X) (B : list X) (prev : list nat) (diag left : nat) : list nat :=
  match B, prev with
  | b :: B', up :: prev' =>
      let c := min3 (diag + mismatchCost a b) (up + 1) (left + 1) in
      c :: next_cells a B' prev' up c
  | _, _ => []
  end.

(** Modelled from the spec: row i from row i-1; its first cell is the
    base case cell(i,0) = i. *)
Definition next_row (i : nat) (a : X) (B : list X) (prev : list nat) : list nat :=
  match prev with
  | diag :: prev' => i :: next_cells a B prev' diag i
  | [] => []
  end.

(** Modelled from the spec: the rows i, i+1, ... of the table, one per
    remaining symbol of [A], each from the row before it. *)
Fixpoint table_from (i : nat) (A B : list X) (prev : list nat) : list (list nat) :=
  match A with
  | [] => []
  | a :: A' =>
      let r := next_row i a B prev in
      r :: table_from (S i) A' B r
  end.

(** Modelled from the spec: the table of size (m+1) x (n+1). *)
Definition dp_table (A B : list X) : list (list nat) :=
  first_row (length B) :: table_from 1 A B (first_row (length B)).

(** Reading cell (i,j) of a table. *)
Definition lookup_cell (T : list (list nat)) (i j : nat) : nat :=
  nth j (nth i T []) 0%nat.

(** Modelled from the spec: cell(i,j), which holds the minimum cost to
    transform A[0..i) into B[0..j). *)
Definition cell (A B : list X) (i j : nat) : nat := lookup_cell (dp_table A B) i j.

(** Modelled from the spec: the operation of a diagonal step into cell
    (i+1,j+1), a match if A[i] = B[j] and a substitution otherwise. *)
Definition diagonal_op (A B : list X) (i j : nat) : EditOp :=
  if decide (A !! i = B !! j) then Match else Substitution.

(** Modelled from the spec: the backtrace from cell (i,j) to (0,0),
    last operation first.  Among the predecessors that attain the
    cell's value the diagonal one is preferred to the vertical one
    (deletion), and the vertical one to the horizontal one (insertion). *)
Fixpoint backtrace (T : list (list nat)) (A B : list X) (i : nat) : nat → list EditOp :=
  match i with
  | O => λ j, replicate j Insertion
  | S i' =>
      fix column (j : nat) : list EditOp :=
        match j with
        | O => replicate (S i') Deletion
        | S j' =>
            if decide (lookup_cell T (S i') (S j')
                       = lookup_cell T i' j' + op_cost (diagonal_op A B i' j'))%nat
            then diagonal_op A B i' j' :: backtrace T A B i' j'
            else if decide (lookup_cell T (S i') (S j') = lookup_cell T i' (S j') + 1)%nat
            then Deletion :: backtrace T A B i' (S j')
            else Insertion :: column j'
        end
  end.

(** Modelled from the spec: the Pairwise Distance Engine.  The score is
    the final cell, the script is the backtrace reversed into forward
    order. *)
Definition pairwise (A B : list X) : Alignment :=
  let T := dp_table A B in
  {| distance := lookup_cell T (length A) (length B);
     script := rev (backtrace T A B (length A) (length B)) |}.

End Pairwise.

(** Modelled from the spec: the Profile, one Alignment Row per merged
    sequence. *)
Abbreviation Profile := (list TRow).

(** Modelled from the spec: the row of the new sequence [S] (section
    4.3).  An insertion is a Profile column with no counterpart in [S] and
    gives a gap; every other operation takes the next symbol of [S]. *)
Fixpoint new_row (s : list EditOp) (S : list Dna5) : TRow :=
  match s with
  | [] => []
  | Insertion :: s' => None :: new_row s' S
  | _ :: s' =>
      match S with
      | c :: S' => Some c :: new_row s' S'
      | [] => []
      end
  end.

(** Modelled from the spec: an existing row under the script (section
    4.3).  A deletion is a symbol of [S] with no counterpart in the
    Profile and inserts a gap column; every other operation keeps the next
    column of the row. *)
Fixpoint widen (s : list EditOp) (r : TRow) : TRow :=
  match s with
  | [] => []
  | Deletion :: s' => None :: widen s' r
  | _ :: s' =>
      match r with
      | x :: r' => x :: widen s' r'
      | [] => []
      end
  end.

(** Modelled from the spec: Profile Alignment / Merge (section 4.3).  The
    new sequence is aligned against the first row of the Profile, its
    flattened representative; merging into an empty Profile seeds it. *)
Definition merge (P : Profile) (S : list Dna5) : Profile :=
  match P with
  | [] => [map Some S]
  | representative :: _ =>
      let e := pairwise (map Some S) representative in
      map (widen (script e)) P ++ [new_row (script e) S]
  end.

(** Modelled from the spec: Guide Construction and the progressive pass
    (section 4.2): the Profile starts empty and the sequences are merged
    in input order.  This stands for SeqAn's [globalMsaAlignment], which
    is not in the repository. *)
Definition progressive_msa (seqs : list (list Dna5)) : Profile :=
  fold_left merge seqs [].

End Engine.

(** ** Process start-up *)

(** The argument strings as the C runtime lays them out: one NUL-terminated
    block per argument, at the addresses [next], [next+1], ... *)
Fixpoint place_args (args : list string) (next : loc) (h : heap) : list loc * heap :=
  match args with
  | [] => ([], h)
  | a :: args' =>
      let block := Bytes (list_ascii_of_string a ++ [NUL]) in
      let '(ps, h') := place_args args' (Pos.succ next) (<[next := block]> h) in
      (next :: ps, h')
  end.

(** The memory at the start of [main]: the argument strings and the array
    [argv] of pointers to them.  The null entry [argv[argc]], which [main]
    never reads, is left out. *)
Definition boot (args : list string) : loc * heap :=
  let '(ps, h) := place_args args 1%positive ∅ in
  let argv := fresh (dom h) in
  (argv, <[argv := Ptrs ps]> h).

(** The program run on a command line, with the engine of the
    specification in the place of SeqAn: exit status and output lines. *)
Definition run (args : list string) : option (Z * list string) :=
  let '(argv, h) := boot args in
  match main Engine.progressive_msa char_to_dna5 (Z.of_nat (length args)) argv h with
  | Some ((status, out), _) => Some (status, map string_of_list_ascii out)
  | None => None
  end.

(** ** Observations used in the statements *)

(** The C string stored at a pointer. *)
Definition string_at (h : heap) (p : loc) : option (list ascii) :=
  match h !! p with
  | Some (Bytes bs) => c_str bs
  | _ => None
  end.

(** The first [n] strings of a [char **]. *)
Definition strings_at (h : heap) (seqs : loc) (n : nat) : option (list (list ascii)) :=
  match h !! seqs with
  | Some (Ptrs ps) =>
      if decide (n ≤ length ps)%nat then mapM (string_at h) (take n ps) else None
  | _ => None
  end.

(** The first [n] pointers of a [char **]. *)
Definition pointers_at (h : heap) (seqs : loc) (n : nat) : option (list loc) :=
  match h !! seqs with
  | Some (Ptrs ps) => if decide (n ≤ length ps)%nat then Some (take n ps) else None
  | _ => None
  end.

(** What row reconstruction is meant to write for a row over the string
    [s]: '-' in a gap column, the next unread symbol of [s] elsewhere. *)
Fixpoint gapped (arow : TRow) (s : list ascii) : list ascii :=
  match arow with
  | [] => []
  | None :: r => gap_char :: gapped r s
  | Some _ :: r =>
      match s with
      | c :: s' => c :: gapped r s'
      | [] => []
      end
  end.

(** Deleting the gap symbols of an output row. *)
Definition strip_gaps (s : list ascii) : list ascii :=
  filter (λ c, c ≠ gap_char) s.

(** What [align] relies on from the library for one row: the row is a
    view of the whole string (as many non-gap columns as the string has
    symbols) and its column count is representable as an [int]. *)
Definition row_over (arow : TRow) (s : list ascii) : Prop :=
  ungapped_len arow = length s ∧ Z.of_nat (length arow) ≤ INT_MAX.

#[global] Instance row_over_dec arow s : Decision (row_over arow s).
Proof. unfold row_over. apply _. Defined.

(** The memory [g] after the first [k] rows have been rebuilt, starting
    from the memory [h] in which [seqs] held the pointers [arr]: the first
    [k] entries of [seqs] are the pointers [qs] to new blocks that hold
    the strings [outs], the other entries are as before, and every other
    block of [h] is untouched. *)
Definition rebuilt (h : heap) (seqs : loc) (arr : list loc) (outs : list (list ascii))
    (k : nat) (qs : list loc) (g : heap) : Prop :=
  length qs = k ∧
  g !! seqs = Some (Ptrs (qs ++ drop k arr)) ∧
  (∀ l b, l ≠ seqs → h !! l = Some b → g !! l = Some b) ∧
  Forall2 (λ q o, g !! q = Some (Bytes (o ++ [NUL])) ∧ h !! q = None) qs (take k outs).

(** ** Sample inputs *)

Definition sample_args : list string := ["ACGT"; "AGT"]%string.
Definition sample_strs : list (list ascii) := map list_ascii_of_string sample_args.
Definition sample_seqs : loc := (boot sample_args).1.
Definition sample_heap : heap := (boot sample_args).2.

(** The memory after a first reconstruction over [sample_heap], with the
    original pointers kept in a second array at address 6. *)
Definition sample_heap_again : heap :=
  <[6%positive := Ptrs [1; 2]%positive]>
    (<[5%positive := Bytes (list_ascii_of_string "A-GT" ++ [NUL])]>
       (<[4%positive := Bytes (list_ascii_of_string "ACGT" ++ [NUL])]>
          (<[sample_seqs := Ptrs [4; 5]%positive]> sample_heap))).

(** A command line with a symbol outside the alphabet. *)
Definition foreign_args : list string := ["seqan_align"; "ACGT"; "AxT"]%string.
Definition foreign_strs : list (list ascii) := map list_ascii_of_string (tail foreign_args).
Definition foreign_argv : loc := (boot foreign_args).1.
Definition foreign_heap : heap := (boot foreign_args).2.

(** Rows for the single-row instances: one that covers only the first two
    symbols of a string, one with more symbols than the block of "ACGT"
    has bytes, and one with as many symbols as that block has bytes. *)
Definition clipped_row : TRow := [Some Dna5A; None; Some Dna5C].
Definition overlong_row : TRow :=
  [Some Dna5A; Some Dna5C; Some Dna5G; Some Dna5T; Some Dna5N; Some Dna5N].
Definition reaching_row : TRow :=
  [Some Dna5A; None; Some Dna5C; Some Dna5G; Some Dna5T; Some Dna5N].


(** * Properties *)

(** ** C strings and rows *)

Lemma c_str_app (s tail : list ascii) :
  NUL ∉ s → c_str (s ++ NUL :: tail) = Some s.
Proof.
  induction s as [|c s IH]; intros Hs; simpl.
  - done.
  - apply not_elem_of_cons in Hs as [Hc Hs].
    rewrite decide_False by done. by rewrite IH.
Qed.

Lemma c_str_Some (bs s : list ascii) :
  c_str bs = Some s → (NUL ∉ s) ∧ ∃ tail, bs = s ++ NUL :: tail.
Proof.
  revert s. induction bs as [|c bs IH]; intros s; simpl; [done|].
  case_decide as Hc.
  - intros [= <-]. split; [apply not_elem_of_nil|]. exists bs. by rewrite Hc.
  - destruct (c_str bs) as [s'|] eqn:E; [|done].
    intros [= <-]. destruct (IH s' eq_refl) as [Hs' [tail ->]].
    split; [|by exists tail].
    apply not_elem_of_cons. split; [congruence|done].
Qed.

Lemma gapped_length (arow : TRow) (s : list ascii) :
  (ungapped_len arow ≤ length s)%nat → length (gapped arow s) = length arow.
Proof.
  revert s. induction arow as [|[d|] r IH]; intros s Hs; simpl in *; [done| |].
  - destruct s as [|c s]; simpl in *; [lia|]. rewrite IH; [done|lia].
  - by rewrite IH.
Qed.

Lemma gapped_no_NUL (arow : TRow) (s : list ascii) :
  NUL ∉ s → NUL ∉ gapped arow s.
Proof.
  revert s. induction arow as [|[d|] r IH]; intros s Hs; simpl.
  - apply not_elem_of_nil.
  - destruct s as [|c s]; [apply not_elem_of_nil|].
    apply not_elem_of_cons in Hs as [Hc Hs].
    apply not_elem_of_cons. split; [done|by apply IH].
  - apply not_elem_of_cons. split; [done|by apply IH].
Qed.

(** Removing the gap symbols of a reconstructed row gives back the string,
    when the string holds no gap symbol of its own. *)
Lemma strip_gaps_gapped (arow : TRow) (s : list ascii) :
  ungapped_len arow = length s → gap_char ∉ s → strip_gaps (gapped arow s) = s.
Proof.
  unfold strip_gaps.
  revert s. induction arow as [|[d|] r IH]; intros s Hlen Hs; simpl in *.
  - by destruct s.
  - destruct s as [|c s]; simpl in *; [done|].
    apply not_elem_of_cons in Hs as [Hc Hs].
    rewrite filter_cons_True by done. f_equal. apply IH; [lia|done].
  - rewrite filter_cons_False by (intros Hne; by apply Hne). by apply IH.
Qed.

(** Without that proviso the round trip removes the string's own gap
    symbols too. *)
Lemma strip_gaps_gapped_any (arow : TRow) (s : list ascii) :
  ungapped_len arow = length s → strip_gaps (gapped arow s) = strip_gaps s.
Proof.
  unfold strip_gaps.
  revert s. induction arow as [|[d|] r IH]; intros s Hlen; simpl in *.
  - by destruct s.
  - destruct s as [|c s]; simpl in *; [done|].
    rewrite !filter_cons. case_decide; [f_equal|]; apply IH; lia.
  - rewrite filter_cons_False by (intros Hne; by apply Hne). by apply IH.
Qed.

Lemma gapped_all_columns (s : list ascii) (ds : list Dna5) :
  length ds = length s → gapped (map Some ds) s = s.
Proof.
  revert s. induction ds as [|d ds IH]; intros [|c s] Hlen; simpl in *; try done.
  f_equal. apply IH. lia.
Qed.

Lemma to_int_small (z : Z) : 0 ≤ z ≤ INT_MAX → to_int z = z.
Proof.
  unfold to_int, INT_MAX. intros Hz.
  rewrite Z.mod_small; lia.
Qed.

Lemma nucleotide_not_gap (s : list ascii) :
  Forall nucleotide s → gap_char ∉ s.
Proof.
  intros Hs Hin. rewrite Forall_forall in Hs.
  destruct (Hs _ Hin) as [H|[H|[H|[H|H]]]]; discriminate H.
Qed.

(** ** The loop over the columns of one row *)

Lemma for_from_S {S : Type} (i : Z) (n : nat) (body : Z → S → M S) (s : S) (h : heap) :
  for_from i (Datatypes.S n) body s h =
  match body i s h with
  | Some (s', h') => for_from (i + 1) n body s' h'
  | None => None
  end.
Proof. reflexivity. Qed.

Lemma bind_Some {A B : Type} (m : M A) (k : A → M B) (h h' : heap) (a : A) :
  m h = Some (a, h') → bind m k h = k a h'.
Proof. unfold bind. by intros ->. Qed.

Lemma load_ptr_run (a : loc) (i : nat) (ps : list loc) (p : loc) (h : heap) :
  h !! a = Some (Ptrs ps) → ps !! i = Some p →
  load_ptr a (Z.of_nat i) h = Some (p, h).
Proof.
  intros Ha Hp. unfold load_ptr.
  by rewrite Ha, decide_True, Nat2Z.id, Hp by lia.
Qed.

Lemma store_ptr_run (a : loc) (i : nat) (ps : list loc) (p : loc) (h : heap) :
  h !! a = Some (Ptrs ps) → (i < length ps)%nat →
  store_ptr a (Z.of_nat i) p h = Some (tt, <[a := Ptrs (<[i := p]> ps)]> h).
Proof.
  intros Ha Hi. unfold store_ptr.
  by rewrite Ha, Nat2Z.id, decide_True by (split; lia).
Qed.

Lemma isGap_middle (pre suf : TRow) (x : option Dna5) :
  isGap (pre ++ x :: suf) (Z.of_nat (length pre))
  = match x with None => true | Some _ => false end.
Proof.
  unfold isGap. by rewrite Nat2Z.id, list_lookup_middle by done.
Qed.

Lemma store_char_insert (q : loc) (done rest : list ascii) (c0 c : ascii) (g : heap) :
  store_char q (Z.of_nat (length done)) c (<[q := Bytes (done ++ c0 :: rest)]> g)
  = Some (tt, <[q := Bytes ((done ++ [c]) ++ rest)]> g).
Proof.
  unfold store_char. rewrite lookup_insert_eq, Nat2Z.id.
  rewrite decide_True by (rewrite length_app; simpl; lia).
  rewrite insert_insert_eq, insert_app_r_alt, Nat.sub_diag by lia.
  simpl. by rewrite <- app_assoc.
Qed.

Lemma column_loop (arow : TRow) (seqs : loc) (i : Z) (new_seq p : loc)
    (arr : list loc) (bs : list ascii) (g : heap) :
  g !! seqs = Some (Ptrs arr) → 0 ≤ i → arr !! Z.to_nat i = Some p →
  g !! p = Some (Bytes bs) →
  new_seq ≠ seqs → new_seq ≠ p →
  ∀ (suf pre : TRow) (s_suf s_pre done rest : list ascii),
    arow = pre ++ suf →
    (∃ tail, bs = s_pre ++ s_suf ++ tail) →
    length s_pre = ungapped_len pre →
    (ungapped_len suf ≤ length s_suf)%nat →
    length done = length pre →
    (length suf ≤ length rest)%nat →
    ∃ offset,
      for_from (Z.of_nat (length pre)) (length suf) (column arow seqs i new_seq)
        (Z.of_nat (length s_pre) - Z.of_nat (length pre))
        (<[new_seq := Bytes (done ++ rest)]> g)
      = Some (offset,
              <[new_seq := Bytes (done ++ gapped suf s_suf ++ drop (length suf) rest)]> g).
Proof.
  intros Hseqs Hi Harr Hp Hns Hnp.
  induction suf as [|x suf IH]; intros pre s_suf s_pre done rest Harow Hbs Hspre Hsuf Hdone Hrest.
  - simpl. eexists. reflexivity.
  - destruct rest as [|c0 rest]; [simpl in Hrest; lia|].
    simpl length. rewrite for_from_S.
    unfold column at 1. rewrite Harow, isGap_middle.
    destruct x as [d|].
    + (* a symbol of the source *)
      destruct s_suf as [|c s_suf]; [simpl in Hsuf; lia|].
      unfold bind, load_ptr; cbv beta.
      rewrite lookup_insert_ne, Hseqs, decide_True, Harr by done.
      unfold load_char; cbv beta. rewrite lookup_insert_ne, Hp by done.
      rewrite decide_True by lia.
      destruct Hbs as [tail ->].
      replace (Z.to_nat (Z.of_nat (length pre) + (Z.of_nat (length s_pre) - Z.of_nat (length pre))))
        with (length s_pre) by lia.
      rewrite <- app_comm_cons, list_lookup_middle by done.
      rewrite <- Hdone, store_char_insert.
      destruct (IH (pre ++ [Some d]) s_suf (s_pre ++ [c]) (done ++ [c]) rest)
        as [offset Hloop].
      * by rewrite <- app_assoc.
      * exists tail. by rewrite <- !app_assoc.
      * rewrite !length_app. simpl. clear -Hspre.
        induction pre as [|[?|] pre IHp] in s_pre, Hspre |- *; simpl in *; try lia.
        -- destruct s_pre; simpl in *; [lia|]. rewrite <- (IHp s_pre); lia.
        -- rewrite <- (IHp s_pre); lia.
      * simpl in Hsuf. lia.
      * rewrite !length_app. simpl. lia.
      * simpl in Hrest. lia.
      * exists offset. unfold ret.
        rewrite !length_app in Hloop. simpl length in Hloop.
        rewrite Hdone.
        replace (Z.of_nat (length pre) + 1) with (Z.of_nat (length pre + 1)) by lia.
        replace (Z.of_nat (length s_pre) - Z.of_nat (length pre))
          with (Z.of_nat (length s_pre + 1) - Z.of_nat (length pre + 1)) by lia.
        rewrite <- Harow, Hloop. simpl. by rewrite <- app_assoc.
    + (* a gap column *)
      unfold bind; cbv beta.
      rewrite <- Hdone, store_char_insert.
      destruct (IH (pre ++ [None]) s_suf s_pre (done ++ [gap_char]) rest)
        as [offset Hloop].
      * by rewrite <- app_assoc.
      * done.
      * rewrite Hspre. clear. induction pre as [|[?|] pre IHp]; simpl; congruence.
      * simpl in Hsuf. lia.
      * rewrite !length_app. simpl. lia.
      * simpl in Hrest. lia.
      * exists offset. unfold ret.
        rewrite !length_app in Hloop. simpl length in Hloop.
        rewrite Hdone.
        replace (Z.of_nat (length pre) + 1) with (Z.of_nat (length pre + 1)) by lia.
        replace (Z.of_nat (length s_pre) - Z.of_nat (length pre) - 1)
          with (Z.of_nat (length s_pre) - Z.of_nat (length pre + 1)) by lia.
        rewrite <- Harow, Hloop. simpl. by rewrite <- app_assoc.
Qed.

(** ** One row *)

Lemma fresh_not_live (g : heap) (l : loc) (b : block) :
  g !! l = Some b → fresh (dom g) ≠ l.
Proof.
  intros Hl Heq. apply (is_fresh (dom g)). rewrite Heq.
  apply elem_of_dom. by exists b.
Qed.

Lemma fresh_lookup (g : heap) : g !! fresh (dom g) = None.
Proof. apply not_elem_of_dom, is_fresh. Qed.

Lemma rebuild_row_spec (rows : list TRow) (seqs : loc) (i : nat) (arow : TRow)
    (arr : list loc) (p : loc) (bs s : list ascii) (g : heap) :
  rows !! i = Some arow →
  g !! seqs = Some (Ptrs arr) → arr !! i = Some p →
  g !! p = Some (Bytes bs) → c_str bs = Some s →
  row_over arow s →
  rebuild_row rows seqs (Z.of_nat i) g
  = Some (tt, <[seqs := Ptrs (<[i := fresh (dom g)]> arr)]>
                (<[fresh (dom g) := Bytes (gapped arow s ++ [NUL])]> g)).
Proof.
  intros Hrow Hseqs Harr Hp Hbs [Hlen Hmax].
  apply c_str_Some in Hbs as [Hnul [tail ->]].
  set (q := fresh (dom g)).
  assert (q ≠ seqs) as Hqs by (eapply fresh_not_live; done).
  assert (q ≠ p) as Hqp by (eapply fresh_not_live; done).
  unfold rebuild_row, bind, row, malloc; cbv beta.
  rewrite Nat2Z.id, Hrow. cbv zeta. fold q.
  rewrite to_int_small by lia.
  replace (Z.to_nat (Z.of_nat (length arow) + 1)) with (S (length arow)) by lia.
  rewrite Nat2Z.id.
  destruct (column_loop arow seqs (Z.of_nat i) q p arr (s ++ NUL :: tail) g
              Hseqs ltac:(lia) ltac:(by rewrite Nat2Z.id) Hp Hqs Hqp
              arow [] s [] [] (replicate (S (length arow)) NUL))
    as [offset Hloop]; try done.
  - by exists (NUL :: tail).
  - rewrite Hlen. lia.
  - rewrite length_replicate. lia.
  - change (Z.of_nat (length [])) with 0 in Hloop.
    change (0 - 0) with 0 in Hloop. cbn [app length] in Hloop.
    rewrite Hloop, drop_replicate.
    replace (S (length arow) - length arow)%nat with 1%nat by lia.
    rewrite <- (gapped_length arow s) at 1 by lia.
    simpl replicate. rewrite store_char_insert, app_nil_r.
    unfold store_ptr. rewrite lookup_insert_ne, Hseqs by done.
    rewrite Nat2Z.id, decide_True; [done|].
    split; [lia|]. by eapply lookup_lt_Some.
Qed.

(** ** The loop over the rows *)

Lemma string_at_block (h : heap) (p : loc) (s : list ascii) :
  string_at h p = Some s → ∃ bs, h !! p = Some (Bytes bs) ∧ c_str bs = Some s.
Proof.
  unfold string_at. destruct (h !! p) as [[bs|]|]; try done. by exists bs.
Qed.

Lemma rebuild_rows_loop (h : heap) (seqs : loc) (ps rest : list loc)
    (strs : list (list ascii)) (rows : list TRow) :
  h !! seqs = Some (Ptrs (ps ++ rest)) →
  Forall2 (λ p s, string_at h p = Some s) ps strs →
  Forall2 row_over rows strs →
  ∀ (n k : nat) (qs : list loc) (g : heap),
    (k + n = length strs)%nat →
    rebuilt h seqs (ps ++ rest) (zip_with gapped rows strs) k qs g →
    ∃ qs' g',
      for_from (Z.of_nat k) n (λ i _, rebuild_row rows seqs i) tt g = Some (tt, g') ∧
      rebuilt h seqs (ps ++ rest) (zip_with gapped rows strs) (k + n) qs' g'.
Proof.
  intros Hseqs Hstrs Hrows.
  induction n as [|n IH]; intros k qs g Hk Hinv.
  - exists qs, g. split; [done|]. by rewrite Nat.add_0_r.
  - destruct Hinv as (Hlen & Harr & Hold & Hnew).
    destruct (lookup_lt_is_Some_2 strs k) as [s Hs]; [lia|].
    destruct (Forall2_lookup_r _ _ _ _ _ Hstrs Hs) as (p & Hp & Hps).
    destruct (Forall2_lookup_r _ _ _ _ _ Hrows Hs) as (arow & Harow & Hover).
    destruct (string_at_block _ _ _ Hps) as (bs & Hblock & Hbs).
    assert (p ≠ seqs) as Hpseqs by congruence.
    assert ((ps ++ rest) !! k = Some p) as Hpk by (by apply lookup_app_l_Some).
    assert ((qs ++ drop k (ps ++ rest)) !! k = Some p) as Hqk.
    { rewrite lookup_app_r, Hlen, Nat.sub_diag, lookup_drop, Nat.add_0_r by lia. done. }
    rewrite for_from_S.
    rewrite (rebuild_row_spec rows seqs k arow _ p bs s g Harow Harr Hqk
               (Hold _ _ Hpseqs Hblock) Hbs Hover).
    set (q := fresh (dom g)).
    assert (h !! q = None) as Hq.
    { destruct (h !! q) as [b|] eqn:E; [|done].
      destruct (decide (q = seqs)) as [Heq|Hne].
      - by destruct (fresh_not_live g seqs _ Harr).
      - by destruct (fresh_not_live g q b (Hold _ _ Hne E)). }
    replace (Z.of_nat k + 1) with (Z.of_nat (S k)) by lia.
    destruct (IH (S k) (qs ++ [q])
                (<[seqs := Ptrs (<[k := q]> (qs ++ drop k (ps ++ rest)))]>
                   (<[q := Bytes (gapped arow s ++ [NUL])]> g)))
      as (qs' & g' & Hrun & Hinv'); [lia| |].
    + repeat split.
      * rewrite length_app. simpl. lia.
      * rewrite lookup_insert_eq. do 2 f_equal.
        rewrite insert_app_r_alt, Hlen, Nat.sub_diag by lia.
        rewrite (drop_S _ _ _ Hpk). simpl. by rewrite <- app_assoc.
      * intros l b Hl Hlb. rewrite lookup_insert_ne by done.
        rewrite lookup_insert_ne; [by apply Hold|].
        intros <-. congruence.
      * erewrite take_S_r by (by erewrite lookup_zip_with, Harow, Hs).
        apply Forall2_app.
        -- eapply Forall2_impl; [exact Hnew|].
           intros q' o [Hq' Hfresh]. split; [|done].
           rewrite lookup_insert_ne by congruence.
           rewrite lookup_insert_ne; [done|].
           intros <-. unfold q in Hq'. by rewrite fresh_lookup in Hq'.
        -- apply Forall2_cons. split; [|constructor]. split; [|done].
           rewrite lookup_insert_ne, lookup_insert_eq; [done|].
           intros Heq. apply (fresh_not_live g seqs _ Harr). by symmetry.
    + exists qs', g'. split; [done|].
      by replace (k + S n)%nat with (S k + n)%nat by lia.
Qed.

(** ** Reading the strings of an array *)

Lemma load_sources (convert : ascii → Dna5) (h : heap) (seqs : loc) (arr : list loc) :
  h !! seqs = Some (Ptrs arr) →
  ∀ (todo : list (list ascii)) (k : nat) (acc : list (list Dna5)),
    (∀ j s, todo !! j = Some s →
            ∃ p, arr !! (k + j)%nat = Some p ∧ string_at h p = Some s) →
    for_from (Z.of_nat k) (length todo)
      (λ i acc, src <- assignSource convert seqs i ;; ret (acc ++ [src])) acc h
    = Some (acc ++ map (map convert) todo, h).
Proof.
  intros Hseqs. induction todo as [|s todo IH]; intros k acc Htodo.
  - simpl. unfold ret. by rewrite app_nil_r.
  - destruct (Htodo 0%nat s eq_refl) as (p & Hp & Hs).
    rewrite Nat.add_0_r in Hp.
    apply string_at_block in Hs as (bs & Hblock & Hbs).
    simpl length. rewrite for_from_S.
    unfold bind, assignSource, bind, load_ptr, load_cstr, ret; cbv beta.
    rewrite Hseqs, decide_True, Nat2Z.id, Hp, Hblock, Hbs by lia.
    replace (Z.of_nat k + 1) with (Z.of_nat (S k)) by lia.
    rewrite IH.
    + simpl. by rewrite <- app_assoc.
    + intros j s' Hj. destruct (Htodo (S j) s' Hj) as (p' & Hp' & Hs').
      exists p'. split; [|done]. by rewrite <- Hp', Nat.add_succ_r.
Qed.

Lemma print_loop (h : heap) (seqs : loc) (arr : list loc) :
  h !! seqs = Some (Ptrs arr) →
  ∀ (todo : list (list ascii)) (k : nat) (out : list (list ascii)),
    (∀ j s, todo !! j = Some s →
            ∃ p, arr !! (k + j)%nat = Some p ∧ string_at h p = Some s) →
    for_from (Z.of_nat k) (length todo)
      (λ i out, p <- load_ptr seqs i ;; s <- load_cstr p ;; ret (out ++ [s])) out h
    = Some (out ++ todo, h).
Proof.
  intros Hseqs. induction todo as [|s todo IH]; intros k out Htodo.
  - simpl. unfold ret. by rewrite app_nil_r.
  - destruct (Htodo 0%nat s eq_refl) as (p & Hp & Hs).
    rewrite Nat.add_0_r in Hp.
    apply string_at_block in Hs as (bs & Hblock & Hbs).
    simpl length. rewrite for_from_S.
    unfold bind, load_ptr, load_cstr, ret; cbv beta.
    rewrite Hseqs, decide_True, Nat2Z.id, Hp, Hblock, Hbs by lia.
    replace (Z.of_nat k + 1) with (Z.of_nat (S k)) by lia.
    rewrite IH.
    + by rewrite <- app_assoc.
    + intros j s' Hj. destruct (Htodo (S j) s' Hj) as (p' & Hp' & Hs').
      exists p'. split; [|done]. by rewrite <- Hp', Nat.add_succ_r.
Qed.

Lemma strings_at_split (h : heap) (seqs : loc) (n : nat) (strs : list (list ascii)) :
  strings_at h seqs n = Some strs →
  ∃ ps rest,
    h !! seqs = Some (Ptrs (ps ++ rest)) ∧
    length strs = n ∧
    Forall2 (λ p s, string_at h p = Some s) ps strs.
Proof.
  unfold strings_at. destruct (h !! seqs) as [[|arr]|]; try done.
  case_decide as Hn; [|done]. intros Hm.
  apply mapM_Some in Hm.
  exists (take n arr), (drop n arr). rewrite take_drop. split; [done|]. split; [|done].
  apply Forall2_length in Hm. rewrite length_take in Hm. lia.
Qed.

Lemma strings_at_intro (h : heap) (seqs : loc) (ps rest : list loc)
    (strs : list (list ascii)) :
  h !! seqs = Some (Ptrs (ps ++ rest)) →
  Forall2 (λ p s, string_at h p = Some s) ps strs →
  strings_at h seqs (length strs) = Some strs.
Proof.
  intros Hseqs Hstrs. unfold strings_at. rewrite Hseqs.
  pose proof (Forall2_length _ _ _ Hstrs) as Hlen.
  rewrite decide_True by (rewrite length_app; lia).
  apply mapM_Some. by rewrite <- Hlen, take_app_length.
Qed.

Lemma strings_NUL_free (h : heap) (ps : list loc) (strs : list (list ascii)) :
  Forall2 (λ p s, string_at h p = Some s) ps strs → Forall (λ s, NUL ∉ s) strs.
Proof.
  induction 1 as [|p s ps strs Hs _ IH]; constructor; [|done].
  apply string_at_block in Hs as (bs & _ & Hbs). by apply c_str_Some in Hbs as [? _].
Qed.

(** The strings of the rebuilt array are the reconstructed rows. *)
Lemma rebuilt_strings (h : heap) (seqs : loc) (arr : list loc)
    (outs : list (list ascii)) (qs : list loc) (g : heap) :
  Forall (λ o, NUL ∉ o) outs →
  rebuilt h seqs arr outs (length outs) qs g →
  strings_at g seqs (length outs) = Some outs.
Proof.
  intros Hnul (Hlen & Harr & _ & Hnew).
  rewrite firstn_all in Hnew.
  apply (strings_at_intro g seqs qs (drop (length outs) arr)); [done|].
  clear Hlen Harr. revert Hnul.
  induction Hnew as [|q o qs outs [Hq _] _ IH]; intros Hnul; constructor.
  - unfold string_at. rewrite Hq. apply c_str_app. by inversion Hnul.
  - apply IH. by inversion Hnul.
Qed.

(** ** [align] and [main] *)

(** What a call of [align] does, for any library whose rows are views of
    the caller's strings. *)
Lemma align_spec (globalMsaAlignment : list (list Dna5) → list TRow)
    (convert : ascii → Dna5) (h : heap) (seqs : loc) (ps rest : list loc)
    (strs : list (list ascii)) :
  h !! seqs = Some (Ptrs (ps ++ rest)) →
  Forall2 (λ p s, string_at h p = Some s) ps strs →
  Forall2 row_over (globalMsaAlignment (map (map convert) strs)) strs →
  ∃ qs h',
    align globalMsaAlignment convert (Z.of_nat (length strs)) seqs h = Some (seqs, h') ∧
    rebuilt h seqs (ps ++ rest)
      (zip_with gapped (globalMsaAlignment (map (map convert) strs)) strs)
      (length strs) qs h'.
Proof.
  intros Hseqs Hstrs Hrows.
  pose proof (load_sources convert h seqs (ps ++ rest) Hseqs strs 0 []) as Hload.
  change (Z.of_nat 0) with 0 in Hload.
  destruct (rebuild_rows_loop h seqs ps rest strs _ Hseqs Hstrs Hrows
              (length strs) 0 [] h) as (qs & h' & Hrun & Hinv); [done| |].
  { repeat split; by try constructor. }
  change (Z.of_nat 0) with 0 in Hrun.
  exists qs, h'. split; [|done].
  unfold align. rewrite decide_False by lia.
  rewrite Nat2Z.id. erewrite bind_Some; [|apply Hload].
  - cbv zeta. simpl app. unfold rebuild_rows. rewrite Nat2Z.id.
    by erewrite bind_Some by exact Hrun.
  - intros j s Hj. destruct (Forall2_lookup_r _ _ _ _ _ Hstrs Hj) as (p & Hp & Hps).
    exists p. split; [|done]. by apply lookup_app_l_Some.
Qed.

Lemma last_cons_default {A : Type} (l : list A) (z d d' : A) :
  List.last (z :: l) d = List.last (z :: l) d'.
Proof.
  revert z. induction l as [|y l IH]; intros z; [done|].
  change (List.last (y :: l) d = List.last (y :: l) d'). apply IH.
Qed.

(** The loop of [main] that drops [argv[0]]. *)
Lemma shift_loop (argv : loc) (rest : list loc) :
  ∀ (todo done : list loc) (x : loc) (h : heap),
    h !! argv = Some (Ptrs (done ++ x :: todo ++ rest)) →
    for_from (Z.of_nat (S (length done))) (length todo)
      (λ i _, p <- load_ptr argv i ;; store_ptr argv (i - 1) p) tt h
    = Some (tt, <[argv := Ptrs (done ++ todo ++ List.last todo x :: rest)]> h).
Proof.
  induction todo as [|y todo IH]; intros done x h Hargv.
  - simpl. unfold ret. by rewrite insert_id.
  - simpl length. rewrite for_from_S. cbv beta.
    erewrite bind_Some; cycle 1.
    { apply (load_ptr_run _ _ _ y _ Hargv).
      rewrite lookup_app_r by lia.
      by replace (S (length done) - length done)%nat with 1%nat by lia. }
    replace (Z.of_nat (S (length done)) - 1) with (Z.of_nat (length done)) by lia.
    rewrite (store_ptr_run _ _ _ _ _ Hargv) by (rewrite length_app; simpl; lia).
    rewrite insert_app_r_alt, Nat.sub_diag by lia. simpl.
    replace (Z.of_nat (S (length done)) + 1)
      with (Z.of_nat (S (length (done ++ [y]))))
      by (rewrite !length_app; simpl; lia).
    rewrite (IH (done ++ [y]) y); [|by rewrite lookup_insert_eq, <- app_assoc].
    rewrite insert_insert_eq, <- app_assoc. simpl.
    destruct todo as [|z todo]; [done|].
    by rewrite (last_cons_default todo z y x).
Qed.

Lemma outs_length (rows : list TRow) (strs : list (list ascii)) :
  Forall2 row_over rows strs → length (zip_with gapped rows strs) = length strs.
Proof. induction 1; simpl; congruence. Qed.

Lemma outs_NUL_free (rows : list TRow) (strs : list (list ascii)) :
  Forall (λ s, NUL ∉ s) strs → Forall (λ o, NUL ∉ o) (zip_with gapped rows strs).
Proof.
  intros Hstrs. revert rows.
  induction Hstrs as [|s strs Hs _ IH]; intros [|r rows]; simpl; constructor.
  - by apply gapped_no_NUL.
  - apply IH.
Qed.

(** The strings [align] leaves in the array, read back. *)
Lemma align_strings (globalMsaAlignment : list (list Dna5) → list TRow)
    (convert : ascii → Dna5) (h : heap) (seqs : loc) (strs : list (list ascii)) :
  strings_at h seqs (length strs) = Some strs →
  Forall2 row_over (globalMsaAlignment (map (map convert) strs)) strs →
  ∃ h',
    align globalMsaAlignment convert (Z.of_nat (length strs)) seqs h = Some (seqs, h') ∧
    strings_at h' seqs (length strs)
    = Some (zip_with gapped (globalMsaAlignment (map (map convert) strs)) strs).
Proof.
  intros Hin Hrows.
  destruct (strings_at_split _ _ _ _ Hin) as (ps & rest & Hseqs & _ & Hstrs).
  destruct (align_spec _ convert h seqs ps rest strs Hseqs Hstrs Hrows)
    as (qs & h' & Hrun & Hinv).
  exists h'. split; [done|].
  rewrite <- (outs_length _ _ Hrows) in Hinv |- *.
  eapply rebuilt_strings; [|exact Hinv].
  apply outs_NUL_free. by eapply strings_NUL_free.
Qed.

(** What a run of [main] prints, for any library whose rows are views of
    the command-line arguments. *)
Lemma main_spec (globalMsaAlignment : list (list Dna5) → list TRow)
    (convert : ascii → Dna5) (h : heap) (argv p0 : loc) (ps rest : list loc)
    (strs : list (list ascii)) :
  h !! argv = Some (Ptrs (p0 :: ps ++ rest)) →
  Forall2 (λ p s, string_at h p = Some s) ps strs →
  Forall2 row_over (globalMsaAlignment (map (map convert) strs)) strs →
  ∃ h',
    main globalMsaAlignment convert (Z.of_nat (S (length strs))) argv h
    = Some ((0, zip_with gapped (globalMsaAlignment (map (map convert) strs)) strs), h').
Proof.
  intros Hargv Hstrs Hrows.
  pose proof (Forall2_length _ _ _ Hstrs) as Hlen.
  set (h1 := <[argv := Ptrs (ps ++ List.last ps p0 :: rest)]> h).
  assert (Forall2 (λ p s, string_at h1 p = Some s) ps strs) as Hstrs1.
  { eapply Forall2_impl; [exact Hstrs|]. intros p s Hs. unfold string_at, h1.
    rewrite lookup_insert_ne; [done|]. intros <-.
    unfold string_at in Hs. by rewrite Hargv in Hs. }
  assert (h1 !! argv = Some (Ptrs (ps ++ List.last ps p0 :: rest))) as Hargv1
    by apply lookup_insert_eq.
  destruct (align_strings globalMsaAlignment convert h1 argv strs) as (h' & Hrun & Hout);
    [by eapply strings_at_intro|done|].
  destruct (strings_at_split _ _ _ _ Hout) as (qs & rest' & Hargv' & Houtlen & Hqs).
  exists h'. unfold main.
  replace (Z.of_nat (S (length strs)) - 1) with (Z.of_nat (length strs)) by lia.
  rewrite Nat2Z.id.
  erewrite bind_Some; cycle 1.
  { rewrite <- Hlen. apply (shift_loop argv rest ps [] p0 h Hargv). }
  simpl app. fold h1.
  erewrite bind_Some by exact Hrun.
  rewrite <- Houtlen.
  erewrite bind_Some; cycle 1.
  { apply (print_loop h' argv _ Hargv' _ 0%nat []).
    intros j o Hj. destruct (Forall2_lookup_r _ _ _ _ _ Hqs Hj) as (q & Hq & Hqo).
    exists q. split; [|done]. by apply lookup_app_l_Some. }
  done.
Qed.

(** ** The table of the pairwise engine *)

Import Engine.

Local Open Scope nat_scope.

Section TableFacts.
Context {X : Type} `{EqDecision X}.
Implicit Types (A B : list X) (a b : X).

Lemma first_row_length (n : nat) : length (first_row n) = S n.
Proof. unfold first_row. by rewrite length_seq. Qed.

Lemma first_row_nth (n j : nat) : (j ≤ n)%nat → nth j (first_row n) 0%nat = j.
Proof. intros Hj. unfold first_row. rewrite seq_nth; lia. Qed.

Lemma next_cells_length a B :
  ∀ (prev : list nat) (diag left : nat),
    length prev = length B → length (next_cells a B prev diag left) = length B.
Proof.
  induction B as [|b B IH]; intros [|up prev] diag left Hlen; simpl in *; try done.
  rewrite IH; [done|lia].
Qed.

Lemma next_cells_nth a B :
  ∀ (prev : list nat) (diag left : nat) (j : nat) b,
    length prev = length B → B !! j = Some b →
    nth j (next_cells a B prev diag left) 0%nat
    = min3 (nth j (diag :: prev) 0 + mismatchCost a b)
           (nth j prev 0 + 1)
           (nth j (left :: next_cells a B prev diag left) 0 + 1).
Proof.
  induction B as [|b0 B IH]; intros [|up prev] diag left j b Hlen Hj; simpl in *; try done.
  destruct j as [|j]; simpl in *.
  - by injection Hj as ->.
  - rewrite (IH prev up _ j b); [done|lia|done].
Qed.

Lemma next_row_length (i : nat) a B (prev : list nat) :
  length prev = S (length B) → length (next_row i a B prev) = S (length B).
Proof.
  destruct prev as [|diag prev]; simpl; [done|]. intros Hlen.
  rewrite next_cells_length; [done|lia].
Qed.

Lemma table_from_row (B : list X) :
  ∀ A (i0 : nat) (prev : list nat) (i : nat) a,
    A !! i = Some a →
    nth i (table_from i0 A B prev) []
    = next_row (i0 + i) a B (nth i (prev :: table_from i0 A B prev) []).
Proof.
  induction A as [|a0 A IH]; intros i0 prev i a Hi; [done|].
  destruct i as [|i]; simpl in *.
  - injection Hi as ->. by rewrite Nat.add_0_r.
  - rewrite (IH (S i0) _ i a Hi). by rewrite Nat.add_succ_r.
Qed.

(** Row i+1 of the table is computed from row i and the symbol A[i]. *)
Lemma dp_table_row A B (i : nat) a :
  A !! i = Some a →
  nth (S i) (dp_table A B) [] = next_row (S i) a B (nth i (dp_table A B) []).
Proof. intros Hi. unfold dp_table. simpl nth at 1. by rewrite (table_from_row B A 1 _ i a Hi). Qed.

Lemma dp_table_row_length A B (i : nat) :
  (i ≤ length A)%nat → length (nth i (dp_table A B) []) = S (length B).
Proof.
  induction i as [|i IH]; intros Hi.
  - apply first_row_length.
  - destruct (lookup_lt_is_Some_2 A i) as [a Ha]; [lia|].
    rewrite (dp_table_row A B i a Ha). apply next_row_length, IH. lia.
Qed.

(** The base cases and the recurrence of section 4.1. *)
Lemma cell_0_j A B (j : nat) : (j ≤ length B)%nat → cell A B 0 j = j.
Proof. intros Hj. unfold cell, lookup_cell, dp_table. simpl. by apply first_row_nth. Qed.

Lemma cell_i_0 A B (i : nat) : (i ≤ length A)%nat → cell A B i 0 = i.
Proof.
  destruct i as [|i]; intros Hi; [by apply cell_0_j; lia|].
  destruct (lookup_lt_is_Some_2 A i) as [a Ha]; [lia|].
  unfold cell, lookup_cell. rewrite (dp_table_row A B i a Ha).
  pose proof (dp_table_row_length A B i ltac:(lia)) as Hlen.
  by destruct (nth i (dp_table A B) []).
Qed.

Lemma cell_S_S A B (i j : nat) a b :
  A !! i = Some a → B !! j = Some b →
  cell A B (S i) (S j)
  = min3 (cell A B i j + mismatchCost a b) (cell A B i (S j) + 1) (cell A B (S i) j + 1).
Proof.
  intros Ha Hb. unfold cell, lookup_cell. rewrite (dp_table_row A B i a Ha).
  pose proof (dp_table_row_length A B i) as Hlen.
  destruct (nth i (dp_table A B) []) as [|diag prev].
  { apply lookup_lt_Some in Ha. simpl in Hlen. lia. }
  apply lookup_lt_Some in Ha as Hi. simpl in Hlen.
  unfold next_row. simpl nth at 1.
  rewrite (next_cells_nth a B prev diag (S i) j b); [done|lia|done].
Qed.

End TableFacts.

(** ** Edit scripts *)

Section ScriptFacts.
Context {X : Type} `{EqDecision X}.
Implicit Types (A B : list X) (a b : X) (s : list EditOp).

Lemma script_cost_app s1 s2 : script_cost (s1 ++ s2) = script_cost s1 + script_cost s2.
Proof. induction s1 as [|o s1 IH]; simpl; [done|]. rewrite IH. lia. Qed.

Lemma script_cost_rev s : script_cost (rev s) = script_cost s.
Proof.
  induction s as [|o s IH]; [done|]. simpl rev.
  rewrite script_cost_app, IH. simpl. lia.
Qed.

Lemma script_cost_replicate (n : nat) (o : EditOp) :
  script_cost (replicate n o) = n * op_cost o.
Proof. induction n as [|n IH]; [done|]. simpl. rewrite IH. lia. Qed.

Lemma valid_script_app s1 :
  ∀ A1 B1 s2 A2 B2,
    valid_script s1 A1 B1 = true → valid_script s2 A2 B2 = true →
    valid_script (s1 ++ s2) (A1 ++ A2) (B1 ++ B2) = true.
Proof.
  induction s1 as [|o s1 IH]; intros A1 B1 s2 A2 B2 H1 H2.
  - by destruct A1, B1.
  - destruct o, A1 as [|a A1], B1 as [|b B1]; simpl in *; try done.
    + apply andb_prop in H1 as [-> H1]. by apply (IH A1 B1).
    + apply andb_prop in H1 as [-> H1]. by apply (IH A1 B1).
    + by apply (IH [] B1).
    + by apply (IH (a :: A1) B1).
    + by apply (IH A1 []).
    + by apply (IH A1 (b :: B1)).
Qed.

(** A script read backwards transforms the reversed sequences. *)
Lemma valid_script_rev s :
  ∀ A B, valid_script s A B = true → valid_script (rev s) (rev A) (rev B) = true.
Proof.
  induction s as [|o s IH]; intros A B Hv.
  - by destruct A, B.
  - simpl rev.
    destruct o, A as [|a A], B as [|b B]; simpl in Hv; try done; simpl rev.
    + apply andb_prop in Hv as [Hab Hv].
      apply valid_script_app; [by apply IH|]. simpl. by rewrite Hab.
    + apply andb_prop in Hv as [Hab Hv].
      apply valid_script_app; [by apply IH|]. simpl. by rewrite Hab.
    + apply (valid_script_app _ [] (rev B) [Insertion] [] [b]); [|done].
      by apply (IH [] B).
    + rewrite <- (app_nil_r (rev A ++ [a])).
      apply (valid_script_app _ (rev A ++ [a]) (rev B) [Insertion] [] [b]); [|done].
      by apply (IH (a :: A) B).
    + apply (valid_script_app _ (rev A) [] [Deletion] [a] []); [|done].
      by apply (IH A []).
    + rewrite <- (app_nil_r (rev B ++ [b])).
      apply (valid_script_app _ (rev A) (rev B ++ [b]) [Deletion] [a] []); [|done].
      by apply (IH A (b :: B)).
Qed.

Lemma valid_script_insertions B :
  valid_script (replicate (length B) Insertion) [] B = true.
Proof. induction B as [|b B IH]; [done|]. simpl. by destruct B. Qed.

Lemma valid_script_deletions A :
  valid_script (replicate (length A) Deletion) A [] = true.
Proof. induction A as [|a A IH]; [done|]. simpl. by destruct A. Qed.

(** How many symbols of each sequence a script consumes. *)
Lemma valid_script_length s :
  ∀ A B, valid_script s A B = true →
         length s ≤ length A + length B ∧ length A ≤ length s ∧ length B ≤ length s.
Proof.
  induction s as [|o s IH]; intros A B Hv.
  - destruct A, B; simpl in *; try done; lia.
  - destruct o, A as [|a A], B as [|b B]; simpl in Hv; try done.
    + apply andb_prop in Hv as [_ Hv]. apply IH in Hv. simpl. lia.
    + apply andb_prop in Hv as [_ Hv]. apply IH in Hv. simpl. lia.
    + apply IH in Hv. simpl in *. lia.
    + apply IH in Hv. simpl in *. lia.
    + apply IH in Hv. simpl in *. lia.
    + apply IH in Hv. simpl in *. lia.
Qed.

End ScriptFacts.

(** ** The pairwise engine: the script it returns and its optimality *)

Section PairwiseFacts.
Context {X : Type} `{EqDecision X}.
Implicit Types (A B : list X) (a b : X) (s : list EditOp).

Lemma rev_take_S A (i : nat) a :
  A !! i = Some a → rev (take (S i) A) = a :: rev (take i A).
Proof. intros Ha. by rewrite (take_S_r A i a Ha), rev_app_distr. Qed.

Lemma rev_take_nil A (i : nat) : i ≤ length A → rev (take i A) = [] → i = 0.
Proof.
  intros Hi Hnil. destruct i as [|i]; [done|].
  destruct (lookup_lt_is_Some_2 A i) as [a Ha]; [lia|].
  by rewrite (rev_take_S A i a Ha) in Hnil.
Qed.

Lemma rev_take_cons A (i : nat) a (A' : list X) :
  i ≤ length A → rev (take i A) = a :: A' →
  ∃ i', i = S i' ∧ A !! i' = Some a ∧ A' = rev (take i' A).
Proof.
  intros Hi Hcons. destruct i as [|i]; [done|].
  destruct (lookup_lt_is_Some_2 A i) as [a0 Ha]; [lia|].
  rewrite (rev_take_S A i a0 Ha) in Hcons. injection Hcons as -> <-.
  by exists i.
Qed.

Lemma cell_step_diagonal A B (i j : nat) a b :
  A !! i = Some a → B !! j = Some b →
  cell A B (S i) (S j) ≤ cell A B i j + mismatchCost a b.
Proof. intros Ha Hb. rewrite (cell_S_S A B i j a b Ha Hb). unfold min3. lia. Qed.

Lemma cell_step_vertical A B (i j : nat) a :
  A !! i = Some a → j ≤ length B → cell A B (S i) j ≤ cell A B i j + 1.
Proof.
  intros Ha Hj. apply lookup_lt_Some in Ha as Hi.
  destruct j as [|j].
  - rewrite !cell_i_0 by lia. lia.
  - destruct (lookup_lt_is_Some_2 B j) as [b Hb]; [lia|].
    rewrite (cell_S_S A B i j a b Ha Hb). unfold min3. lia.
Qed.

Lemma cell_step_horizontal A B (i j : nat) b :
  i ≤ length A → B !! j = Some b → cell A B i (S j) ≤ cell A B i j + 1.
Proof.
  intros Hi Hb. apply lookup_lt_Some in Hb as Hj.
  destruct i as [|i].
  - rewrite !cell_0_j by lia. lia.
  - destruct (lookup_lt_is_Some_2 A i) as [a Ha]; [lia|].
    rewrite (cell_S_S A B i j a b Ha Hb). unfold min3. lia.
Qed.

(** No script for the prefixes is cheaper than the cell. *)
Lemma cell_lower_bound A B s :
  ∀ (i j : nat),
    i ≤ length A → j ≤ length B →
    valid_script s (rev (take i A)) (rev (take j B)) = true →
    cell A B i j ≤ script_cost s.
Proof.
  induction s as [|o s IH]; intros i j Hi Hj Hv.
  - destruct (rev (take i A)) eqn:EA, (rev (take j B)) eqn:EB; simpl in Hv; try done.
    apply rev_take_nil in EA, EB; try done. subst. by rewrite cell_0_j by lia.
  - destruct (rev (take i A)) as [|a A'] eqn:EA, (rev (take j B)) as [|b B'] eqn:EB;
      destruct o; simpl in Hv; try done;
      try (apply rev_take_cons in EA as (i' & -> & Ha & ->); [|done]);
      try (apply rev_take_cons in EB as (j' & -> & Hb & ->); [|done]);
      try (apply andb_prop in Hv as [Hab Hv]).
    + (* insertion, nothing left of A *)
      rewrite <- EA in Hv. apply IH in Hv; [|done|lia].
      pose proof (cell_step_horizontal A B i j' b Hi Hb). simpl. lia.
    + (* deletion, nothing left of B *)
      rewrite <- EB in Hv. apply IH in Hv; [|lia|done].
      pose proof (cell_step_vertical A B i' j a Ha Hj). simpl. lia.
    + (* match *)
      apply IH in Hv; [|lia..].
      pose proof (cell_step_diagonal A B i' j' a b Ha Hb) as Hd.
      apply bool_decide_eq_true in Hab. unfold mismatchCost in Hd.
      rewrite decide_True in Hd by done. simpl. lia.
    + (* substitution *)
      apply IH in Hv; [|lia..].
      pose proof (cell_step_diagonal A B i' j' a b Ha Hb) as Hd.
      unfold mismatchCost in Hd. destruct (decide (a = b)); simpl; lia.
    + (* insertion *)
      rewrite <- (rev_take_S A i' a Ha) in Hv. apply IH in Hv; [|done|lia].
      pose proof (cell_step_horizontal A B (S i') j' b Hi Hb). simpl. lia.
    + (* deletion *)
      rewrite <- (rev_take_S B j' b Hb) in Hv. apply IH in Hv; [|lia|done].
      pose proof (cell_step_vertical A B i' (S j') a Ha Hj). simpl. lia.
Qed.

Lemma backtrace_S_S (T : list (list nat)) A B (i j : nat) :
  backtrace T A B (S i) (S j)
  = if decide (lookup_cell T (S i) (S j) = lookup_cell T i j + op_cost (diagonal_op A B i j))
    then diagonal_op A B i j :: backtrace T A B i j
    else if decide (lookup_cell T (S i) (S j) = lookup_cell T i (S j) + 1)
    then Deletion :: backtrace T A B i (S j)
    else Insertion :: backtrace T A B (S i) j.
Proof. reflexivity. Qed.

Lemma diagonal_op_cost A B (i j : nat) a b :
  A !! i = Some a → B !! j = Some b →
  op_cost (diagonal_op A B i j) = mismatchCost a b.
Proof.
  intros Ha Hb. unfold diagonal_op, mismatchCost. rewrite Ha, Hb.
  destruct (decide (a = b)) as [->|Hne].
  - by rewrite decide_True.
  - rewrite decide_False; [done|]. by intros [= ?].
Qed.

(** The backtrace is a script for the reversed prefixes and costs exactly
    the cell it starts from. *)
Lemma backtrace_correct A B :
  ∀ (i j : nat),
    i ≤ length A → j ≤ length B →
    valid_script (backtrace (dp_table A B) A B i j) (rev (take i A)) (rev (take j B)) = true ∧
    script_cost (backtrace (dp_table A B) A B i j) = cell A B i j.
Proof.
  induction i as [|i IHi]; intros j Hi Hj.
  - simpl backtrace. rewrite take_0. simpl rev. split.
    + rewrite <- (length_take_le B j) at 1 by done.
      rewrite <- length_rev. apply valid_script_insertions.
    + rewrite script_cost_replicate, cell_0_j by done. simpl. lia.
  - destruct (lookup_lt_is_Some_2 A i) as [a Ha]; [lia|].
    induction j as [|j IHj].
    + change (backtrace (dp_table A B) A B (S i) 0) with (replicate (S i) Deletion).
      rewrite take_0. simpl rev at 2. split.
      * rewrite <- (length_take_le A (S i)) at 1 by done.
        rewrite <- length_rev. apply valid_script_deletions.
      * rewrite script_cost_replicate, cell_i_0 by done. simpl. lia.
    + destruct (lookup_lt_is_Some_2 B j) as [b Hb]; [lia|].
      rewrite backtrace_S_S.
      rewrite (rev_take_S A i a Ha), (rev_take_S B j b Hb).
      fold (cell A B (S i) (S j)) (cell A B i j) (cell A B i (S j)).
      rewrite (diagonal_op_cost A B i j a b Ha Hb).
      pose proof (cell_S_S A B i j a b Ha Hb) as Hcell.
      destruct (IHi j ltac:(lia) ltac:(lia)) as [Hvd Hcd].
      destruct (IHi (S j) ltac:(lia) Hj) as [Hvv Hcv].
      destruct (IHj ltac:(lia)) as [Hvh Hch].
      rewrite (rev_take_S A i a Ha) in Hvh.
      rewrite (rev_take_S B j b Hb) in Hvv.
      repeat case_decide.
      * split; [|cbn [script_cost]; rewrite (diagonal_op_cost A B i j a b Ha Hb); lia].
        unfold diagonal_op. rewrite Ha, Hb.
        destruct (decide (a = b)) as [->|Hne].
        -- rewrite decide_True by done. simpl. by rewrite bool_decide_eq_true_2.
        -- rewrite decide_False by (by intros [= ?]). simpl.
           by rewrite bool_decide_eq_true_2.
      * split; [exact Hvv|]. cbn [script_cost op_cost]. lia.
      * split; [exact Hvh|]. cbn [script_cost op_cost]. unfold min3 in Hcell. lia.
Qed.

End PairwiseFacts.

Section PairwiseResult.
Context {X : Type} `{EqDecision X}.
Implicit Types (A B : list X) (s : list EditOp).

Lemma pairwise_distance A B :
  distance (pairwise A B) = cell A B (length A) (length B).
Proof. reflexivity. Qed.

Lemma pairwise_valid A B : valid_script (script (pairwise A B)) A B = true.
Proof.
  destruct (backtrace_correct A B (length A) (length B)) as [Hv _]; [done..|].
  rewrite !firstn_all in Hv. apply valid_script_rev in Hv.
  by rewrite !rev_involutive in Hv.
Qed.

Lemma pairwise_cost A B : script_cost (script (pairwise A B)) = distance (pairwise A B).
Proof.
  destruct (backtrace_correct A B (length A) (length B)) as [_ Hc]; [done..|].
  simpl. by rewrite script_cost_rev.
Qed.

Lemma pairwise_optimal A B s :
  valid_script s A B = true → distance (pairwise A B) ≤ script_cost s.
Proof.
  intros Hv. apply valid_script_rev in Hv.
  rewrite pairwise_distance, <- script_cost_rev.
  apply cell_lower_bound; [done..|]. by rewrite !firstn_all.
Qed.

End PairwiseResult.

(** ** Merging into the Profile *)

Lemma ungapped_map_Some (S : list Dna5) : ungapped (map Some S) = S.
Proof. induction S as [|c S IH]; simpl; congruence. Qed.

Lemma ungapped_len_length (r : TRow) : ungapped_len r = length (ungapped r).
Proof. induction r as [|[d|] r IH]; simpl; congruence. Qed.

Lemma ungapped_len_le (r : TRow) : ungapped_len r ≤ length r.
Proof. induction r as [|[d|] r IH]; simpl; lia. Qed.

Section MergeFacts.
Context {X : Type} `{EqDecision X}.

(** The row of the new sequence has one column per operation and is the
    sequence once its gaps are removed. *)
Lemma new_row_spec (s : list EditOp) :
  ∀ (A B : list X) (S : list Dna5),
    valid_script s A B = true → length S = length A →
    length (new_row s S) = length s ∧ ungapped (new_row s S) = S.
Proof.
  induction s as [|o s IH]; intros A B S Hv Hlen.
  - destruct A, B, S; simpl in *; done.
  - destruct o, A as [|a A], B as [|b B], S as [|c S]; simpl in Hv, Hlen; try done;
      try (apply andb_prop in Hv as [_ Hv]); simpl.
    + destruct (IH A B S Hv) as [-> ->]; [lia|done].
    + destruct (IH A B S Hv) as [-> ->]; [lia|done].
    + destruct (IH [] B [] Hv) as [-> ->]; done.
    + destruct (IH (a :: A) B (c :: S) Hv) as [-> ->]; [simpl; lia|done].
    + destruct (IH A [] S Hv) as [-> ->]; [lia|done].
    + destruct (IH A (b :: B) S Hv) as [-> ->]; [lia|done].
Qed.

(** An existing row gets one column per operation and keeps its symbols. *)
Lemma widen_spec (s : list EditOp) :
  ∀ (A B : list X) (r : TRow),
    valid_script s A B = true → length r = length B →
    length (widen s r) = length s ∧ ungapped (widen s r) = ungapped r.
Proof.
  induction s as [|o s IH]; intros A B r Hv Hlen.
  - destruct A, B, r; simpl in *; done.
  - destruct o, A as [|a A], B as [|b B], r as [|x r]; simpl in Hv, Hlen; try done;
      try (apply andb_prop in Hv as [_ Hv]); simpl.
    + destruct (IH A B r Hv) as [-> ->]; [lia|done].
    + destruct (IH A B r Hv) as [-> ->]; [lia|done].
    + destruct (IH [] B r Hv) as [-> ->]; [lia|done].
    + destruct (IH (a :: A) B r Hv) as [-> ->]; [lia|done].
    + destruct (IH A [] [] Hv) as [-> ->]; done.
    + destruct (IH A (b :: B) (x :: r) Hv) as [-> ->]; [simpl; lia|done].
Qed.

End MergeFacts.

(** A merge keeps every row true to its sequence and all rows at one
    length, and adds at most one column per symbol of the new sequence. *)
Lemma merge_aligned (P : Profile) (seqs : list (list Dna5)) (C : nat) (S : list Dna5) :
  Forall2 (λ r d, ungapped r = d) P seqs →
  Forall (λ r, length r = C) P →
  ∃ C', C' ≤ C + length S ∧
        Forall2 (λ r d, ungapped r = d) (merge P S) (seqs ++ [S]) ∧
        Forall (λ r, length r = C') (merge P S).
Proof.
  intros Hrows Hlen. destruct P as [|rep P].
  - apply Forall2_nil_inv_l in Hrows as ->. exists (length S). simpl.
    split; [lia|]. split.
    + constructor; [apply ungapped_map_Some|constructor].
    + constructor; [by rewrite length_map|constructor].
  - unfold merge.
    pose proof (pairwise_valid (map Some S) rep) as Hv.
    set (s := script (pairwise (map Some S) rep)) in *.
    exists (length s).
    pose proof (valid_script_length s _ _ Hv) as (Hle & _ & _).
    rewrite length_map in Hle.
    assert (length rep = C) as Hrep by (by inversion Hlen).
    split; [lia|]. split.
    + apply Forall2_app.
      * apply Forall2_fmap_l. clear Hle.
        induction Hrows as [|r d Q ds Hr _ IH] in Hlen |- *; [constructor|].
        apply Forall_cons in Hlen as [Hr' Hlen]. constructor; [|by apply IH].
        rewrite <- Hr. apply (widen_spec s (map Some S) rep r Hv). congruence.
      * constructor; [|constructor].
        by apply (new_row_spec s (map Some S) rep S Hv); rewrite length_map.
    + apply Forall_app. split.
      * apply Forall_fmap. eapply Forall_impl; [exact Hlen|].
        intros r Hr. simpl. apply (widen_spec s (map Some S) rep r Hv). congruence.
      * constructor; [|constructor].
        by apply (new_row_spec s (map Some S) rep S Hv); rewrite length_map.
Qed.

(** The progressive pass keeps the invariants of the Profile. *)
Lemma progressive_aligned (seqs : list (list Dna5)) :
  ∀ (P : Profile) (merged : list (list Dna5)) (C : nat),
    Forall2 (λ r d, ungapped r = d) P merged →
    Forall (λ r, length r = C) P →
    ∃ C', C' ≤ C + length (concat seqs) ∧
          Forall2 (λ r d, ungapped r = d) (fold_left merge seqs P) (merged ++ seqs) ∧
          Forall (λ r, length r = C') (fold_left merge seqs P).
Proof.
  induction seqs as [|S seqs IH]; intros P merged C Hrows Hlen.
  - exists C. simpl. rewrite app_nil_r. split; [lia|done].
  - destruct (merge_aligned P merged C S Hrows Hlen) as (C1 & HC1 & Hrows1 & Hlen1).
    destruct (IH _ _ _ Hrows1 Hlen1) as (C' & HC' & Hrows' & Hlen').
    exists C'. simpl. rewrite length_app. split; [lia|].
    by rewrite <- app_assoc in Hrows'.
Qed.

Lemma concat_map_length (convert : ascii → Dna5) (strs : list (list ascii)) :
  length (concat (map (map convert) strs)) = length (concat strs).
Proof.
  induction strs as [|s strs IH]; [done|]. simpl.
  by rewrite !length_app, length_map, IH.
Qed.

(** The rows of the engine are views of the strings they were computed
    from, all of one length, provided the total input length fits in an
    [int]. *)
Lemma progressive_rows_over (convert : ascii → Dna5) (strs : list (list ascii)) :
  (Z.of_nat (length (concat strs)) ≤ INT_MAX)%Z →
  ∃ C, Forall2 row_over (progressive_msa (map (map convert) strs)) strs ∧
       Forall (λ r, length r = C) (progressive_msa (map (map convert) strs)).
Proof.
  intros Hmax.
  destruct (progressive_aligned (map (map convert) strs) [] [] 0) as (C & HC & Hrows & Hlen);
    [constructor..|].
  rewrite concat_map_length in HC. simpl in Hrows.
  exists C. split; [|done]. fold (progressive_msa (map (map convert) strs)) in Hrows, Hlen.
  apply Forall2_fmap_r in Hrows.
  assert (Forall (λ r, (Z.of_nat (length r) ≤ INT_MAX)%Z)
            (progressive_msa (map (map convert) strs))) as Hfit.
  { eapply Forall_impl; [exact Hlen|]. intros r ->. lia. }
  clear Hlen HC Hmax. revert Hrows Hfit.
  generalize (progressive_msa (map (map convert) strs)) as rows.
  intros rows Hrows.
  induction Hrows as [|r s rows strs Hr _ IH]; intros Hfit; [constructor|].
  apply Forall_cons in Hfit as [Hfit1 Hfit]. constructor; [|by apply IH].
  split; [|done]. simpl in Hr. by rewrite ungapped_len_length, Hr, length_map.
Qed.

(** ** Reconstruction on its own, and [main] on a command line *)

Lemma rebuild_rows_strings (rows : list TRow) (h : heap) (seqs : loc)
    (strs : list (list ascii)) :
  strings_at h seqs (length strs) = Some strs →
  Forall2 row_over rows strs →
  ∃ h', rebuild_rows rows (Z.of_nat (length strs)) seqs h = Some (tt, h') ∧
        strings_at h' seqs (length strs) = Some (zip_with gapped rows strs).
Proof.
  intros Hin Hrows.
  destruct (strings_at_split _ _ _ _ Hin) as (ps & rest & Hseqs & _ & Hstrs).
  destruct (rebuild_rows_loop h seqs ps rest strs rows Hseqs Hstrs Hrows
              (length strs) 0 [] h) as (qs & h' & Hrun & Hinv); [done| |].
  { repeat split; by try constructor. }
  exists h'. unfold rebuild_rows. rewrite Nat2Z.id. split; [exact Hrun|].
  simpl in Hinv. rewrite <- (outs_length _ _ Hrows) in Hinv |- *.
  eapply rebuilt_strings; [|exact Hinv].
  apply outs_NUL_free. by eapply strings_NUL_free.
Qed.

Lemma main_strings (globalMsaAlignment : list (list Dna5) → list TRow)
    (convert : ascii → Dna5) (h : heap) (argv : loc) (prog : list ascii)
    (strs : list (list ascii)) :
  strings_at h argv (S (length strs)) = Some (prog :: strs) →
  Forall2 row_over (globalMsaAlignment (map (map convert) strs)) strs →
  ∃ h',
    main globalMsaAlignment convert (Z.of_nat (S (length strs))) argv h
    = Some ((0%Z, zip_with gapped (globalMsaAlignment (map (map convert) strs)) strs), h').
Proof.
  intros Hin Hrows.
  destruct (strings_at_split _ _ _ _ Hin) as (ps & rest & Hargv & _ & Hstrs).
  destruct ps as [|p0 ps]; [by apply Forall2_nil_inv_l in Hstrs|].
  apply Forall2_cons in Hstrs as [_ Hstrs].
  by apply (main_spec _ _ h argv p0 ps rest).
Qed.

Lemma strip_gaps_rows (rows : list TRow) (strs : list (list ascii)) :
  Forall2 row_over rows strs →
  Forall (λ s, gap_char ∉ s) strs →
  map strip_gaps (zip_with gapped rows strs) = strs.
Proof.
  induction 1 as [|r s rows strs [Hr _] _ IH]; intros Hgap; [done|].
  apply Forall_cons in Hgap as [Hs Hgap]. simpl.
  by rewrite strip_gaps_gapped, IH.
Qed.

Lemma strip_gaps_rows_any (rows : list TRow) (strs : list (list ascii)) :
  Forall2 row_over rows strs →
  Forall2 (λ o s, strip_gaps o = strip_gaps s) (zip_with gapped rows strs) strs.
Proof.
  induction 1 as [|r s rows strs [Hr _] _ IH]; simpl; constructor; [|done].
  by apply strip_gaps_gapped_any.
Qed.

Lemma gapped_rows_lengths (rows : list TRow) (strs : list (list ascii)) (C : nat) :
  Forall2 row_over rows strs →
  Forall (λ r, length r = C) rows →
  Forall (λ o, length o = C) (zip_with gapped rows strs) ∧
  Forall (λ s, length s ≤ C) strs.
Proof.
  induction 1 as [|r s rows strs [Hr _] _ IH]; intros Hlen; [by split; constructor|].
  apply Forall_cons in Hlen as [Hr' Hlen]. destruct (IH Hlen) as [IH1 IH2].
  simpl. split; constructor; try done.
  - rewrite gapped_length; [done|lia].
  - pose proof (ungapped_len_le r). lia.
Qed.

(** ** The codec and the engine on one sequence *)

(** [char_to_dna5] inverts [dna5_base_to_char] on the values of Dna5. *)
Lemma char_to_dna5_inverse (d : Dna5) :
  char_to_dna5 (dna5_base_to_char (ascii_of_N (ordValue d))) = d.
Proof. by destruct d. Qed.

Lemma progressive_msa_single (d : list Dna5) : progressive_msa [d] = [map Some d].
Proof. reflexivity. Qed.

Lemma progressive_msa_empty : progressive_msa [] = [].
Proof. reflexivity. Qed.

(** * The properties of the specification *)

(** Closed side conditions of the instances below are settled by
    evaluation. *)
Ltac by_evaluation := vm_compute; first [reflexivity | discriminate | lia].
Ltac by_decision := apply (bool_decide_unpack _); vm_compute; exact I.

(** C1 (round trip).  For every collection of input strings and every
    output row that [align] produces, deleting the gap symbols '-' from
    row i gives back input string i, symbol for symbol.  The library's
    rows are taken as views of the inputs ([row_over]); the inputs hold no
    '-' of their own, which every Sequence over {A,C,G,T,N} satisfies
    ([nucleotide_not_gap]). *)
Theorem align_round_trip (globalMsaAlignment : list (list Dna5) → list TRow)
    (convert : ascii → Dna5) (h : heap) (seqs : loc) (strs : list (list ascii)) :
  strings_at h seqs (length strs) = Some strs →
  Forall2 row_over (globalMsaAlignment (map (map convert) strs)) strs →
  Forall (λ s, gap_char ∉ s) strs →
  ∃ h' outs,
    align globalMsaAlignment convert (Z.of_nat (length strs)) seqs h = Some (seqs, h') ∧
    strings_at h' seqs (length strs) = Some outs ∧
    map strip_gaps outs = strs.
Proof.
  intros Hin Hrows Hgap.
  destruct (align_strings globalMsaAlignment convert h seqs strs Hin Hrows)
    as (h' & Hrun & Hout).
  exists h', (zip_with gapped (globalMsaAlignment (map (map convert) strs)) strs).
  split; [done|]. split; [done|]. by apply strip_gaps_rows.
Qed.

(** The proviso on the inputs is needed: a '-' that the caller's string
    holds itself is copied into the row and removed with the gaps. *)
Example round_trip_needs_gap_free_input :
  run ["seqan_align"; "A-GT"; "ACGT"]%string = Some (0%Z, ["A-GT"; "ACGT"]%string) ∧
  strip_gaps (list_ascii_of_string "A-GT") = list_ascii_of_string "AGT".
Proof. split; by_evaluation. Qed.

Lemma align_round_trip_witness :
  strings_at sample_heap sample_seqs (length sample_strs) = Some sample_strs ∧
  Forall2 row_over (progressive_msa (map (map char_to_dna5) sample_strs)) sample_strs ∧
  Forall (λ s, gap_char ∉ s) sample_strs ∧
  ∃ h' outs,
    align progressive_msa char_to_dna5 (Z.of_nat (length sample_strs)) sample_seqs sample_heap
    = Some (sample_seqs, h') ∧
    strings_at h' sample_seqs (length sample_strs) = Some outs ∧
    map strip_gaps outs = sample_strs.
Proof.
  assert (strings_at sample_heap sample_seqs (length sample_strs) = Some sample_strs) as H1
    by by_evaluation.
  assert (Forall2 row_over (progressive_msa (map (map char_to_dna5) sample_strs)) sample_strs)
    as H2 by by_decision.
  assert (Forall (λ s, gap_char ∉ s) sample_strs) as H3
    by by_decision.
  split; [exact H1|]. split; [exact H2|]. split; [exact H3|].
  exact (align_round_trip progressive_msa char_to_dna5 sample_heap sample_seqs sample_strs
           H1 H2 H3).
Defined.

(** C2 (length invariant).  For every input of N > 0 strings, all N output
    rows of [align] have one and the same length, and that length is at
    least the length of every input string, the longest one included.  The
    library's rows are taken as an alignment of the inputs: views of them
    ([row_over]) that share their column count [C]. *)
Theorem align_rows_equal_length (globalMsaAlignment : list (list Dna5) → list TRow)
    (convert : ascii → Dna5) (h : heap) (seqs : loc) (strs : list (list ascii))
    (C : nat) :
  0 < length strs →
  strings_at h seqs (length strs) = Some strs →
  Forall2 row_over (globalMsaAlignment (map (map convert) strs)) strs →
  Forall (λ r, length r = C) (globalMsaAlignment (map (map convert) strs)) →
  ∃ h' outs,
    align globalMsaAlignment convert (Z.of_nat (length strs)) seqs h = Some (seqs, h') ∧
    strings_at h' seqs (length strs) = Some outs ∧
    length outs = length strs ∧
    Forall (λ o, length o = C) outs ∧
    Forall (λ s, length s ≤ C) strs.
Proof.
  intros _ Hin Hrows Hlen.
  destruct (align_strings globalMsaAlignment convert h seqs strs Hin Hrows)
    as (h' & Hrun & Hout).
  destruct (gapped_rows_lengths _ _ C Hrows Hlen) as [Houts Hstrs].
  exists h', (zip_with gapped (globalMsaAlignment (map (map convert) strs)) strs).
  repeat split; try done. by apply outs_length.
Qed.

Lemma align_rows_equal_length_witness :
  0 < length sample_strs ∧
  strings_at sample_heap sample_seqs (length sample_strs) = Some sample_strs ∧
  Forall2 row_over (progressive_msa (map (map char_to_dna5) sample_strs)) sample_strs ∧
  Forall (λ r, length r = 4) (progressive_msa (map (map char_to_dna5) sample_strs)) ∧
  ∃ h' outs,
    align progressive_msa char_to_dna5 (Z.of_nat (length sample_strs)) sample_seqs sample_heap
    = Some (sample_seqs, h') ∧
    strings_at h' sample_seqs (length sample_strs) = Some outs ∧
    length outs = length sample_strs ∧
    Forall (λ o, length o = 4) outs ∧
    Forall (λ s, length s ≤ 4) sample_strs.
Proof.
  assert (0 < length sample_strs) as H1 by by_evaluation.
  assert (strings_at sample_heap sample_seqs (length sample_strs) = Some sample_strs) as H2
    by by_evaluation.
  assert (Forall2 row_over (progressive_msa (map (map char_to_dna5) sample_strs)) sample_strs)
    as H3 by by_decision.
  assert (Forall (λ r, length r = 4) (progressive_msa (map (map char_to_dna5) sample_strs)))
    as H4 by by_decision.
  split; [exact H1|]. split; [exact H2|]. split; [exact H3|]. split; [exact H4|].
  exact (align_rows_equal_length progressive_msa char_to_dna5 sample_heap sample_seqs
           sample_strs 4 H1 H2 H3 H4).
Defined.

(** With the engine of the specification in the place of the library
    both provisos on the rows are met, whenever the total input length
    fits in an [int]. *)
Lemma align_progressive_equal_length (convert : ascii → Dna5) (h : heap) (seqs : loc)
    (strs : list (list ascii)) :
  strings_at h seqs (length strs) = Some strs →
  (Z.of_nat (length (concat strs)) ≤ INT_MAX)%Z →
  ∃ h' outs C,
    align progressive_msa convert (Z.of_nat (length strs)) seqs h = Some (seqs, h') ∧
    strings_at h' seqs (length strs) = Some outs ∧
    length outs = length strs ∧
    Forall (λ o, length o = C) outs ∧
    Forall (λ s, length s ≤ C) strs.
Proof.
  intros Hin Hmax.
  destruct (progressive_rows_over convert strs Hmax) as (C & Hrows & Hlen).
  destruct (align_strings progressive_msa convert h seqs strs Hin Hrows)
    as (h' & Hrun & Hout).
  destruct (gapped_rows_lengths _ _ C Hrows Hlen) as [Houts Hstrs].
  exists h', (zip_with gapped (progressive_msa (map (map convert) strs)) strs), C.
  repeat split; try done. by apply outs_length.
Qed.

(** C3, as stated, fails: a lower-case sequence and a sequence with the
    foreign symbol 'x' are aligned and printed, the program exits with
    status 0 and nothing is raised. *)
Lemma alphabet_error_counterexample :
  ¬ Forall nucleotide (list_ascii_of_string "acgt") ∧
  run ["seqan_align"; "acgt"]%string = Some (0%Z, ["acgt"]%string) ∧
  ¬ Forall nucleotide (list_ascii_of_string "AxT") ∧
  run ["seqan_align"; "ACGT"; "AxT"]%string = Some (0%Z, ["ACGT"; "A-xT"]%string).
Proof.
  split; [by_decision|]. split; [by_evaluation|].
  split; [by_decision|]. by_evaluation.
Qed.

(** C3 (amended).  For every command line with a symbol outside
    {A,C,G,T,N} the program raises nothing: whatever the conversion makes
    of the symbol, and for every library whose rows are views of the
    arguments, [main] exits with status 0 and prints one row per argument,
    with '-' in the gap columns and the argument's own symbols, the foreign
    ones included and in their order, in the others. *)
Theorem main_no_alphabet_check (globalMsaAlignment : list (list Dna5) → list TRow)
    (convert : ascii → Dna5) (h : heap) (argv : loc) (prog : list ascii)
    (strs : list (list ascii)) :
  Exists (λ s, ¬ Forall nucleotide s) strs →
  strings_at h argv (S (length strs)) = Some (prog :: strs) →
  Forall2 row_over (globalMsaAlignment (map (map convert) strs)) strs →
  ∃ h' outs,
    main globalMsaAlignment convert (Z.of_nat (S (length strs))) argv h
    = Some ((0%Z, outs), h') ∧
    outs = zip_with gapped (globalMsaAlignment (map (map convert) strs)) strs ∧
    Forall2 (λ o s, strip_gaps o = strip_gaps s) outs strs.
Proof.
  intros _ Hin Hrows.
  destruct (main_strings globalMsaAlignment convert h argv prog strs Hin Hrows)
    as (h' & Hrun).
  exists h', (zip_with gapped (globalMsaAlignment (map (map convert) strs)) strs).
  split; [exact Hrun|]. split; [reflexivity|].
  by apply strip_gaps_rows_any.
Qed.

Lemma main_no_alphabet_check_witness :
  Exists (λ s, ¬ Forall nucleotide s) foreign_strs ∧
  strings_at foreign_heap foreign_argv (S (length foreign_strs))
  = Some (list_ascii_of_string "seqan_align" :: foreign_strs) ∧
  Forall2 row_over (progressive_msa (map (map char_to_dna5) foreign_strs)) foreign_strs ∧
  ∃ h' outs,
    main progressive_msa char_to_dna5 (Z.of_nat (S (length foreign_strs)))
      foreign_argv foreign_heap
    = Some ((0%Z, outs), h') ∧
    outs = zip_with gapped (progressive_msa (map (map char_to_dna5) foreign_strs))
             foreign_strs ∧
    Forall2 (λ o s, strip_gaps o = strip_gaps s) outs foreign_strs.
Proof.
  assert (Exists (λ s, ¬ Forall nucleotide s) foreign_strs) as H1
    by by_decision.
  assert (strings_at foreign_heap foreign_argv (S (length foreign_strs))
          = Some (list_ascii_of_string "seqan_align" :: foreign_strs)) as H2
    by by_evaluation.
  assert (Forall2 row_over (progressive_msa (map (map char_to_dna5) foreign_strs))
            foreign_strs) as H3
    by by_decision.
  split; [exact H1|]. split; [exact H2|]. split; [exact H3|].
  exact (main_no_alphabet_check progressive_msa char_to_dna5 foreign_heap foreign_argv
           (list_ascii_of_string "seqan_align") foreign_strs H1 H2 H3).
Defined.

Section PairwiseContract.
Context {X : Type} `{EqDecision X}.
Implicit Types (A B : list X) (a b : X).

Lemma table_from_length B :
  ∀ A (i : nat) (prev : list nat), length (table_from i A B prev) = length A.
Proof. induction A as [|a A IH]; intros i prev; simpl; [done|]. by rewrite IH. Qed.

Lemma dp_table_size A B :
  length (dp_table A B) = S (length A) ∧
  ∀ (i : nat) (r : list nat), dp_table A B !! i = Some r → length r = S (length B).
Proof.
  split.
  - unfold dp_table. simpl. by rewrite table_from_length.
  - intros i r Hr.
    assert (i < length (dp_table A B)) as Hi by (by eapply lookup_lt_Some).
    unfold dp_table in Hi. simpl in Hi. rewrite table_from_length in Hi.
    rewrite <- (dp_table_row_length A B i) by lia.
    by rewrite (nth_lookup_Some _ _ _ _ Hr).
Qed.

Lemma diagonal_op_symbols A B (i j : nat) a b :
  A !! i = Some a → B !! j = Some b →
  diagonal_op A B i j = if decide (a = b) then Match else Substitution.
Proof.
  intros Ha Hb. unfold diagonal_op. rewrite Ha, Hb.
  destruct (decide (a = b)) as [->|Hne].
  - by rewrite decide_True.
  - rewrite decide_False; [done|]. by intros [= ?].
Qed.

(** C4 (pairwise alignment contract).  For any two finite sequences,
    empty ones included, the Pairwise Distance Engine of the specification
    returns (being a total function, it always returns) an edit script
    that transforms [A] into [B], whose cost under the unit costs is the
    returned distance, and no script from [A] to [B] is cheaper.  The
    distance is the last cell of the (m+1) x (n+1) table, whose cells obey
    the base cases cell(i,0) = i and cell(0,j) = j and the recurrence; the
    script is the reversed backtrace, which at every inner cell takes the
    diagonal step if it attains the cell, otherwise the vertical one
    (deletion) if it does, otherwise the horizontal one (insertion). *)
Theorem pairwise_contract A B :
  valid_script (script (pairwise A B)) A B = true ∧
  script_cost (script (pairwise A B)) = distance (pairwise A B) ∧
  (∀ s, valid_script s A B = true → distance (pairwise A B) ≤ script_cost s) ∧
  distance (pairwise A B) = cell A B (length A) (length B) ∧
  length (dp_table A B) = S (length A) ∧
  (∀ (i : nat) (r : list nat), dp_table A B !! i = Some r → length r = S (length B)) ∧
  (∀ i : nat, i ≤ length A → cell A B i 0 = i) ∧
  (∀ j : nat, j ≤ length B → cell A B 0 j = j) ∧
  (∀ (i j : nat) a b,
     A !! i = Some a → B !! j = Some b →
     cell A B (S i) (S j)
     = min3 (cell A B i j + mismatchCost a b) (cell A B i (S j) + 1) (cell A B (S i) j + 1)) ∧
  (∀ (i j : nat) a b,
     A !! i = Some a → B !! j = Some b →
     backtrace (dp_table A B) A B (S i) (S j)
     = if decide (cell A B (S i) (S j) = cell A B i j + mismatchCost a b)
       then (if decide (a = b) then Match else Substitution)
              :: backtrace (dp_table A B) A B i j
       else if decide (cell A B (S i) (S j) = cell A B i (S j) + 1)
       then Deletion :: backtrace (dp_table A B) A B i (S j)
       else Insertion :: backtrace (dp_table A B) A B (S i) j) ∧
  script (pairwise A B) = rev (backtrace (dp_table A B) A B (length A) (length B)).
Proof.
  split; [apply pairwise_valid|].
  split; [apply pairwise_cost|].
  split; [apply pairwise_optimal|].
  split; [apply pairwise_distance|].
  split; [apply dp_table_size|].
  split; [apply dp_table_size|].
  split; [apply cell_i_0|].
  split; [apply cell_0_j|].
  split; [apply cell_S_S|].
  split; [|done].
  intros i j a b Ha Hb. rewrite backtrace_S_S.
  fold (cell A B (S i) (S j)) (cell A B i j) (cell A B i (S j)).
  by rewrite (diagonal_op_cost A B i j a b Ha Hb), (diagonal_op_symbols A B i j a b Ha Hb).
Qed.

End PairwiseContract.

Lemma pairwise_contract_witness :
  valid_script [Match; Substitution; Insertion; Match]
    (list_ascii_of_string "AGT") (list_ascii_of_string "ACGT") = true ∧
  distance (pairwise (list_ascii_of_string "AGT") (list_ascii_of_string "ACGT"))
  ≤ script_cost [Match; Substitution; Insertion; Match].
Proof.
  assert (valid_script [Match; Substitution; Insertion; Match]
            (list_ascii_of_string "AGT") (list_ascii_of_string "ACGT") = true) as Hv
    by by_evaluation.
  split; [exact Hv|].
  exact (proj1 (proj2 (proj2 (pairwise_contract (list_ascii_of_string "AGT")
                                (list_ascii_of_string "ACGT")))) _ Hv).
Defined.

(** C5 (reconstruction is repeatable).  Row Reconstruction run a second
    time on the same rows and the same row data (the same strings behind
    the array it is given), from whatever memory, writes the same output
    strings as the first run.  The rows are taken as views of the
    strings. *)
Theorem reconstruction_repeatable (rows : list TRow) (strs : list (list ascii))
    (h1 h2 : heap) (seqs1 seqs2 : loc) :
  strings_at h1 seqs1 (length strs) = Some strs →
  strings_at h2 seqs2 (length strs) = Some strs →
  Forall2 row_over rows strs →
  ∃ h1' h2' outs,
    rebuild_rows rows (Z.of_nat (length strs)) seqs1 h1 = Some (tt, h1') ∧
    rebuild_rows rows (Z.of_nat (length strs)) seqs2 h2 = Some (tt, h2') ∧
    strings_at h1' seqs1 (length strs) = Some outs ∧
    strings_at h2' seqs2 (length strs) = Some outs.
Proof.
  intros Hin1 Hin2 Hrows.
  destruct (rebuild_rows_strings rows h1 seqs1 strs Hin1 Hrows) as (h1' & Hrun1 & Hout1).
  destruct (rebuild_rows_strings rows h2 seqs2 strs Hin2 Hrows) as (h2' & Hrun2 & Hout2).
  by exists h1', h2', (zip_with gapped rows strs).
Qed.

(** [sample_heap_again] is the memory the first run leaves, plus the
    array at address 6. *)
Example sample_heap_after_first_run :
  rebuild_rows (progressive_msa (map (map char_to_dna5) sample_strs)) 2
    sample_seqs sample_heap
  = Some (tt, delete 6%positive sample_heap_again).
Proof. vm_compute. reflexivity. Qed.

Lemma reconstruction_repeatable_witness :
  strings_at sample_heap sample_seqs (length sample_strs) = Some sample_strs ∧
  strings_at sample_heap_again 6%positive (length sample_strs) = Some sample_strs ∧
  Forall2 row_over (progressive_msa (map (map char_to_dna5) sample_strs)) sample_strs ∧
  ∃ h1' h2' outs,
    rebuild_rows (progressive_msa (map (map char_to_dna5) sample_strs))
      (Z.of_nat (length sample_strs)) sample_seqs sample_heap = Some (tt, h1') ∧
    rebuild_rows (progressive_msa (map (map char_to_dna5) sample_strs))
      (Z.of_nat (length sample_strs)) 6%positive sample_heap_again = Some (tt, h2') ∧
    strings_at h1' sample_seqs (length sample_strs) = Some outs ∧
    strings_at h2' 6%positive (length sample_strs) = Some outs.
Proof.
  assert (strings_at sample_heap sample_seqs (length sample_strs) = Some sample_strs) as H1
    by by_evaluation.
  assert (strings_at sample_heap_again 6%positive (length sample_strs) = Some sample_strs)
    as H2 by by_evaluation.
  assert (Forall2 row_over (progressive_msa (map (map char_to_dna5) sample_strs)) sample_strs)
    as H3 by by_decision.
  split; [exact H1|]. split; [exact H2|]. split; [exact H3|].
  exact (reconstruction_repeatable _ sample_strs sample_heap sample_heap_again
           sample_seqs 6%positive H1 H2 H3).
Defined.

(** Run again in place, on the array it has just overwritten, the
    reconstruction reads the gapped strings as its row data and writes
    something else. *)
Example reconstruction_in_place_differs :
  ∃ h',
    rebuild_rows (progressive_msa (map (map char_to_dna5) sample_strs)) 2
      sample_seqs (delete 6%positive sample_heap_again) = Some (tt, h') ∧
    strings_at h' sample_seqs 2
    = Some [list_ascii_of_string "ACGT"; list_ascii_of_string "A--G"].
Proof. eexists. split; vm_compute; reflexivity. Qed.

(** C6 (example).  On the command line ACGT AGT, with the engine of the
    specification in the place of SeqAn, the program prints ACGT and A-GT:
    the second row has exactly one gap, in the column of the 'C'; the
    pairwise distance is 1, in either direction. *)
Theorem example_ACGT_AGT :
  run ["seqan_align"; "ACGT"; "AGT"]%string = Some (0%Z, ["ACGT"; "A-GT"]%string) ∧
  progressive_msa [[Dna5A; Dna5C; Dna5G; Dna5T]; [Dna5A; Dna5G; Dna5T]]
  = [[Some Dna5A; Some Dna5C; Some Dna5G; Some Dna5T];
     [Some Dna5A; None; Some Dna5G; Some Dna5T]] ∧
  pairwise [Dna5A; Dna5G; Dna5T] [Dna5A; Dna5C; Dna5G; Dna5T]
  = {| distance := 1; script := [Match; Insertion; Match; Match] |} ∧
  pairwise [Dna5A; Dna5C; Dna5G; Dna5T] [Dna5A; Dna5G; Dna5T]
  = {| distance := 1; script := [Match; Deletion; Match; Match] |}.
Proof. repeat split; vm_compute; reflexivity. Qed.

(** C7 (example).  On the command line AAAA TTTT, with the engine of the
    specification in the place of SeqAn, the program prints two rows of
    length 4 without a gap; the script is four substitutions and the
    distance is 4. *)
Theorem example_AAAA_TTTT :
  run ["seqan_align"; "AAAA"; "TTTT"]%string = Some (0%Z, ["AAAA"; "TTTT"]%string) ∧
  progressive_msa [[Dna5A; Dna5A; Dna5A; Dna5A]; [Dna5T; Dna5T; Dna5T; Dna5T]]
  = [map Some [Dna5A; Dna5A; Dna5A; Dna5A]; map Some [Dna5T; Dna5T; Dna5T; Dna5T]] ∧
  pairwise [Dna5T; Dna5T; Dna5T; Dna5T] [Dna5A; Dna5A; Dna5A; Dna5A]
  = {| distance := 4;
       script := [Substitution; Substitution; Substitution; Substitution] |}.
Proof. repeat split; vm_compute; reflexivity. Qed.

(** C8 (no sequences).  With zero sequences nothing fails and the result
    is empty: [align] with [nseq = 0] returns the array it was given and
    leaves the memory as it was (no loop body runs; the library is handed
    the empty collection and its answer is not looked at), and [main] with
    [argc = 1] exits with status 0 and prints nothing. *)
Theorem no_sequences (globalMsaAlignment : list (list Dna5) → list TRow)
    (convert : ascii → Dna5) (h : heap) (argv : loc) :
  align globalMsaAlignment convert 0 argv h = Some (argv, h) ∧
  main globalMsaAlignment convert 1 argv h = Some ((0%Z, []), h).
Proof. split; reflexivity. Qed.

Lemma gapped_rows_single (s : list ascii) (ds : list Dna5) :
  length ds = length s → zip_with gapped [map Some ds] [s] = [s].
Proof. intros Hlen. simpl. by rewrite gapped_all_columns. Qed.

Lemma row_over_all_columns (s : list ascii) (ds : list Dna5) :
  length ds = length s → (Z.of_nat (length s) ≤ INT_MAX)%Z →
  row_over (map Some ds) s.
Proof.
  intros Hlen Hmax. split.
  - by rewrite ungapped_len_length, ungapped_map_Some.
  - rewrite length_map. lia.
Qed.

(** C9 (one sequence).  For a single input string the output is that
    string, unchanged: one row and no gap symbol inserted, from [align]
    with [nseq = 1] and from [main] with one argument.  The library is
    taken to give a single sequence a row without gaps, and the string to
    be no longer than [INT_MAX]. *)
Theorem single_sequence_unchanged (globalMsaAlignment : list (list Dna5) → list TRow)
    (convert : ascii → Dna5) (s : list ascii) :
  globalMsaAlignment [map convert s] = [map Some (map convert s)] →
  (Z.of_nat (length s) ≤ INT_MAX)%Z →
  (∀ (h : heap) (seqs : loc),
     strings_at h seqs 1 = Some [s] →
     ∃ h', align globalMsaAlignment convert 1 seqs h = Some (seqs, h') ∧
           strings_at h' seqs 1 = Some [s]) ∧
  (∀ (h : heap) (argv : loc) (prog : list ascii),
     strings_at h argv 2 = Some [prog; s] →
     ∃ h', main globalMsaAlignment convert 2 argv h = Some ((0%Z, [s]), h')).
Proof.
  intros Hmsa Hmax.
  assert (Forall2 row_over (globalMsaAlignment (map (map convert) [s])) [s]) as Hrows.
  { simpl. rewrite Hmsa. constructor; [|constructor].
    apply row_over_all_columns; [by rewrite length_map|done]. }
  assert (zip_with gapped (globalMsaAlignment (map (map convert) [s])) [s] = [s]) as Hout.
  { simpl map. rewrite Hmsa. apply gapped_rows_single. by rewrite length_map. }
  split.
  - intros h seqs Hin.
    destruct (align_strings globalMsaAlignment convert h seqs [s] Hin Hrows)
      as (h' & Hrun & Hstr).
    exists h'. split; [exact Hrun|]. rewrite Hout in Hstr. exact Hstr.
  - intros h argv prog Hin.
    destruct (main_strings globalMsaAlignment convert h argv prog [s] Hin Hrows)
      as (h' & Hrun).
    exists h'. rewrite Hout in Hrun. exact Hrun.
Qed.

Lemma single_sequence_unchanged_witness :
  progressive_msa [map char_to_dna5 (list_ascii_of_string "ACGT")]
  = [map Some (map char_to_dna5 (list_ascii_of_string "ACGT"))] ∧
  (Z.of_nat (length (list_ascii_of_string "ACGT")) ≤ INT_MAX)%Z ∧
  strings_at (boot ["seqan_align"; "ACGT"]%string).2 (boot ["seqan_align"; "ACGT"]%string).1 2
  = Some [list_ascii_of_string "seqan_align"; list_ascii_of_string "ACGT"] ∧
  ∃ h', main progressive_msa char_to_dna5 2
          (boot ["seqan_align"; "ACGT"]%string).1 (boot ["seqan_align"; "ACGT"]%string).2
        = Some ((0%Z, [list_ascii_of_string "ACGT"]), h').
Proof.
  assert (progressive_msa [map char_to_dna5 (list_ascii_of_string "ACGT")]
          = [map Some (map char_to_dna5 (list_ascii_of_string "ACGT"))]) as H1
    by by_evaluation.
  assert (Z.of_nat (length (list_ascii_of_string "ACGT")) ≤ INT_MAX)%Z as H2
    by by_evaluation.
  assert (strings_at (boot ["seqan_align"; "ACGT"]%string).2
            (boot ["seqan_align"; "ACGT"]%string).1 2
          = Some [list_ascii_of_string "seqan_align"; list_ascii_of_string "ACGT"]) as H3
    by by_evaluation.
  split; [exact H1|]. split; [exact H2|]. split; [exact H3|].
  exact (proj2 (single_sequence_unchanged progressive_msa char_to_dna5
                  (list_ascii_of_string "ACGT") H1 H2) _ _ _ H3).
Defined.

(** C10 (in place).  For every call of [align] with [nseq >= 1] the
    returned pointer is the array [seqs] that was passed in, and after the
    call each of its first [nseq] entries points to a newly allocated
    block (an address with no block before the call) that holds the gapped
    string of its row; none of these entries is one of the caller's
    original pointers.  Every other block, the caller's strings included,
    is as before.  The library's rows are taken as views of the inputs. *)
Theorem align_in_place (globalMsaAlignment : list (list Dna5) → list TRow)
    (convert : ascii → Dna5) (h : heap) (seqs : loc) (ps : list loc)
    (strs : list (list ascii)) :
  1 ≤ length strs →
  pointers_at h seqs (length strs) = Some ps →
  strings_at h seqs (length strs) = Some strs →
  Forall2 row_over (globalMsaAlignment (map (map convert) strs)) strs →
  ∃ h' qs,
    align globalMsaAlignment convert (Z.of_nat (length strs)) seqs h = Some (seqs, h') ∧
    pointers_at h' seqs (length strs) = Some qs ∧
    Forall2 (λ q o, string_at h' q = Some o) qs
      (zip_with gapped (globalMsaAlignment (map (map convert) strs)) strs) ∧
    Forall (λ q, h !! q = None ∧ q ∉ ps) qs ∧
    (∀ l b, l ≠ seqs → h !! l = Some b → h' !! l = Some b).
Proof.
  intros _ Hps Hin Hrows.
  destruct (strings_at_split _ _ _ _ Hin) as (ps0 & rest & Hseqs & _ & Hstrs).
  pose proof (Forall2_length _ _ _ Hstrs) as Hlen0.
  assert (ps = ps0) as ->.
  { unfold pointers_at in Hps. rewrite Hseqs in Hps.
    case_decide; [|done]. injection Hps as <-. by rewrite <- Hlen0, take_app_length. }
  destruct (align_spec globalMsaAlignment convert h seqs ps0 rest strs Hseqs Hstrs Hrows)
    as (qs & h' & Hrun & Hlen & Harr & Hold & Hnew).
  rewrite <- (outs_length _ _ Hrows), firstn_all in Hnew.
  pose proof (outs_NUL_free (globalMsaAlignment (map (map convert) strs)) strs
                (strings_NUL_free _ _ _ Hstrs)) as Hnul.
  exists h', qs. split; [done|]. split; [|split; [|split; [|done]]].
  - unfold pointers_at. rewrite Harr.
    rewrite decide_True by (rewrite length_app; lia).
    by rewrite <- Hlen, take_app_length.
  - clear Hlen Harr. revert Hnew Hnul.
    generalize (zip_with gapped (globalMsaAlignment (map (map convert) strs)) strs).
    intros outs Hnew.
    induction Hnew as [|q o qs outs [Hq _] _ IH]; intros Hnul; [constructor|].
    apply Forall_cons in Hnul as [Ho Hnul]. constructor; [|by apply IH].
    unfold string_at. rewrite Hq. by apply c_str_app.
  - apply (Forall2_Forall_l _ _ _ _ Hnew), Forall_true.
    intros o q [_ Hfresh]. split; [done|].
    intros Hq. apply list_elem_of_lookup in Hq as [i Hi].
    destruct (Forall2_lookup_l _ _ _ _ _ Hstrs Hi) as (s & _ & Hs).
    apply string_at_block in Hs as (bs & Hblock & _). congruence.
Qed.

(** In [main] the array is one entry longer than what [align] is given:
    after the run the entry at index [argc - 1] still holds the pointer to
    the last argument. *)
Example main_array_after_run :
  ∃ h' out,
    main progressive_msa char_to_dna5 3 foreign_argv foreign_heap = Some (out, h') ∧
    pointers_at foreign_heap foreign_argv 3 = Some [1; 2; 3]%positive ∧
    pointers_at h' foreign_argv 3 = Some [5; 6; 3]%positive.
Proof. do 2 eexists. repeat split; by_evaluation. Qed.

Lemma align_in_place_witness :
  1 ≤ length sample_strs ∧
  pointers_at sample_heap sample_seqs (length sample_strs) = Some [1; 2]%positive ∧
  strings_at sample_heap sample_seqs (length sample_strs) = Some sample_strs ∧
  Forall2 row_over (progressive_msa (map (map char_to_dna5) sample_strs)) sample_strs ∧
  ∃ h' qs,
    align progressive_msa char_to_dna5 (Z.of_nat (length sample_strs)) sample_seqs sample_heap
    = Some (sample_seqs, h') ∧
    pointers_at h' sample_seqs (length sample_strs) = Some qs ∧
    Forall2 (λ q o, string_at h' q = Some o) qs
      (zip_with gapped (progressive_msa (map (map char_to_dna5) sample_strs)) sample_strs) ∧
    Forall (λ q, sample_heap !! q = None ∧ q ∉ [1; 2]%positive) qs ∧
    (∀ l b, l ≠ sample_seqs → sample_heap !! l = Some b → h' !! l = Some b).
Proof.
  assert (1 ≤ length sample_strs) as H1 by by_evaluation.
  assert (pointers_at sample_heap sample_seqs (length sample_strs) = Some [1; 2]%positive)
    as H2 by by_evaluation.
  assert (strings_at sample_heap sample_seqs (length sample_strs) = Some sample_strs) as H3
    by by_evaluation.
  assert (Forall2 row_over (progressive_msa (map (map char_to_dna5) sample_strs)) sample_strs)
    as H4 by by_decision.
  split; [exact H1|]. split; [exact H2|]. split; [exact H3|]. split; [exact H4|].
  exact (align_in_place progressive_msa char_to_dna5 sample_heap sample_seqs
           [1; 2]%positive sample_strs H1 H2 H3 H4).
Defined.

(** * Further properties of the code *)

(** ** [dna5_base_to_char] *)

Lemma dna5_value_cases (b : ascii) :
  (N_of_ascii b ≤ 4)%N →
  b = "000"%char ∨ b = "001"%char ∨ b = "002"%char ∨ b = "003"%char ∨ b = "004"%char.
Proof.
  destruct b as [[] [] [] [] [] [] [] []]; intros Hle;
    first [ exfalso; by apply Hle | tauto ].
Qed.

Lemma dna5_base_to_char_letter (b : ascii) :
  nucleotide (dna5_base_to_char b) → (N_of_ascii b ≤ 4)%N.
Proof.
  destruct b as [[] [] [] [] [] [] [] []]; intros Hn;
    first [ by vm_compute
          | exfalso; destruct Hn as [H|[H|[H|[H|H]]]]; discriminate H ].
Qed.

(** X1.  [dna5_base_to_char] gives a nucleotide letter exactly for the
    values 0..4 and '?' for every other byte; on the values 0..4 it is
    injective, so the letter determines the value. *)
Theorem dna5_base_to_char_decodes (b : ascii) :
  (nucleotide (dna5_base_to_char b) ↔ (N_of_ascii b ≤ 4)%N) ∧
  (dna5_base_to_char b = "?"%char ↔ ¬ (N_of_ascii b ≤ 4)%N) ∧
  (∀ b' : ascii,
     (N_of_ascii b ≤ 4)%N → dna5_base_to_char b = dna5_base_to_char b' → b = b').
Proof.
  split; [|split].
  - split; [apply dna5_base_to_char_letter|].
    intros Hle. unfold nucleotide.
    destruct (dna5_value_cases b Hle) as [->|[->|[->|[->| ->]]]]; vm_compute; tauto.
  - split.
    + intros Hq Hle.
      destruct (dna5_value_cases b Hle) as [->|[->|[->|[->| ->]]]]; discriminate Hq.
    + intros Hgt. destruct b as [[] [] [] [] [] [] [] []];
        first [ reflexivity | exfalso; apply Hgt; by vm_compute ].
  - intros b' Hle Heq.
    assert (N_of_ascii b' ≤ 4)%N as Hle'.
    { apply dna5_base_to_char_letter. rewrite <- Heq. unfold nucleotide.
      destruct (dna5_value_cases b Hle) as [->|[->|[->|[->| ->]]]]; vm_compute; tauto. }
    destruct (dna5_value_cases b Hle) as [->|[->|[->|[->| ->]]]];
      destruct (dna5_value_cases b' Hle') as [->|[->|[->|[->| ->]]]];
      first [ reflexivity | discriminate Heq ].
Qed.

(** ** Where [align] puts the gaps and the symbols *)

Lemma gapped_lookup (r : TRow) :
  ∀ (s : list ascii) (j : nat),
    ungapped_len r ≤ length s →
    gapped r s !! j
    = match r !! j with
      | Some None => Some gap_char
      | Some (Some _) => s !! ungapped_len (take j r)
      | None => None
      end.
Proof.
  induction r as [|[d|] r IH]; intros s j Hlen; simpl in *.
  - by destruct j.
  - destruct s as [|c s]; simpl in *; [lia|].
    destruct j as [|j]; simpl; [done|]. apply IH. lia.
  - destruct j as [|j]; simpl; [done|]. by apply IH.
Qed.

Lemma gapped_symbols (r : TRow) :
  ∀ s : list ascii, Forall (λ c, c = gap_char ∨ c ∈ s) (gapped r s).
Proof.
  induction r as [|[d|] r IH]; intros s; simpl.
  - constructor.
  - destruct s as [|c s]; constructor.
    + right. apply list_elem_of_here.
    + eapply Forall_impl; [apply IH|]. intros c' [->|Hc]; [by left|].
      right. by apply list_elem_of_further.
  - constructor; [by left|apply IH].
Qed.

(** X2.  Column by column: in output row i of [align], column j holds
    '-' when the library's row i has a gap there, and otherwise the symbol
    of input string i whose index is the number of non-gap columns before
    j; beyond the last column the row has ended.  The library's rows are
    taken as views of the inputs. *)
Theorem align_column_by_column (globalMsaAlignment : list (list Dna5) → list TRow)
    (convert : ascii → Dna5) (h : heap) (seqs : loc) (strs : list (list ascii)) :
  strings_at h seqs (length strs) = Some strs →
  Forall2 row_over (globalMsaAlignment (map (map convert) strs)) strs →
  ∃ h' outs,
    align globalMsaAlignment convert (Z.of_nat (length strs)) seqs h = Some (seqs, h') ∧
    strings_at h' seqs (length strs) = Some outs ∧
    ∀ (i j : nat) (r : TRow) (s out : list ascii),
      globalMsaAlignment (map (map convert) strs) !! i = Some r →
      strs !! i = Some s →
      outs !! i = Some out →
      out !! j = match r !! j with
                 | Some None => Some gap_char
                 | Some (Some _) => s !! ungapped_len (take j r)
                 | None => None
                 end.
Proof.
  intros Hin Hrows.
  destruct (align_strings globalMsaAlignment convert h seqs strs Hin Hrows)
    as (h' & Hrun & Hout).
  exists h', (zip_with gapped (globalMsaAlignment (map (map convert) strs)) strs).
  split; [done|]. split; [done|].
  intros i j r s out Hr Hs Hrow.
  rewrite lookup_zip_with, Hr, Hs in Hrow. injection Hrow as <-.
  apply gapped_lookup.
  destruct (Forall2_lookup_lr _ _ _ _ _ _ Hrows Hr Hs) as [Hlen _]. lia.
Qed.

Lemma align_column_by_column_witness :
  strings_at sample_heap sample_seqs (length sample_strs) = Some sample_strs ∧
  Forall2 row_over (progressive_msa (map (map char_to_dna5) sample_strs)) sample_strs ∧
  ∃ h' outs,
    align progressive_msa char_to_dna5 (Z.of_nat (length sample_strs)) sample_seqs sample_heap
    = Some (sample_seqs, h') ∧
    strings_at h' sample_seqs (length sample_strs) = Some outs ∧
    ∀ (i j : nat) (r : TRow) (s out : list ascii),
      progressive_msa (map (map char_to_dna5) sample_strs) !! i = Some r →
      sample_strs !! i = Some s →
      outs !! i = Some out →
      out !! j = match r !! j with
                 | Some None => Some gap_char
                 | Some (Some _) => s !! ungapped_len (take j r)
                 | None => None
                 end.
Proof.
  assert (strings_at sample_heap sample_seqs (length sample_strs) = Some sample_strs) as H1
    by by_evaluation.
  assert (Forall2 row_over (progressive_msa (map (map char_to_dna5) sample_strs)) sample_strs)
    as H2 by by_decision.
  split; [exact H1|]. split; [exact H2|].
  exact (align_column_by_column progressive_msa char_to_dna5 sample_heap sample_seqs
           sample_strs H1 H2).
Defined.

(** X3.  [align] invents no symbol: every character of output row i is
    '-' or a character of input string i.  The library's rows are taken as
    views of the inputs. *)
Theorem align_no_new_symbol (globalMsaAlignment : list (list Dna5) → list TRow)
    (convert : ascii → Dna5) (h : heap) (seqs : loc) (strs : list (list ascii)) :
  strings_at h seqs (length strs) = Some strs →
  Forall2 row_over (globalMsaAlignment (map (map convert) strs)) strs →
  ∃ h' outs,
    align globalMsaAlignment convert (Z.of_nat (length strs)) seqs h = Some (seqs, h') ∧
    strings_at h' seqs (length strs) = Some outs ∧
    Forall2 (λ out s, Forall (λ c, c = gap_char ∨ c ∈ s) out) outs strs.
Proof.
  intros Hin Hrows.
  destruct (align_strings globalMsaAlignment convert h seqs strs Hin Hrows)
    as (h' & Hrun & Hout).
  exists h', (zip_with gapped (globalMsaAlignment (map (map convert) strs)) strs).
  split; [done|]. split; [done|].
  clear Hin Hrun Hout. induction Hrows as [|r s rows strs _ _ IH]; simpl; constructor.
  - apply gapped_symbols.
  - apply IH.
Qed.

Lemma align_no_new_symbol_witness :
  strings_at sample_heap sample_seqs (length sample_strs) = Some sample_strs ∧
  Forall2 row_over (progressive_msa (map (map char_to_dna5) sample_strs)) sample_strs ∧
  ∃ h' outs,
    align progressive_msa char_to_dna5 (Z.of_nat (length sample_strs)) sample_seqs sample_heap
    = Some (sample_seqs, h') ∧
    strings_at h' sample_seqs (length sample_strs) = Some outs ∧
    Forall2 (λ out s, Forall (λ c, c = gap_char ∨ c ∈ s) out) outs sample_strs.
Proof.
  assert (strings_at sample_heap sample_seqs (length sample_strs) = Some sample_strs) as H1
    by by_evaluation.
  assert (Forall2 row_over (progressive_msa (map (map char_to_dna5) sample_strs)) sample_strs)
    as H2 by by_decision.
  split; [exact H1|]. split; [exact H2|].
  exact (align_no_new_symbol progressive_msa char_to_dna5 sample_heap sample_seqs
           sample_strs H1 H2).
Defined.

(** ** What [align] allocates *)

(** One more row rebuilt: the call of [rebuild_row] for row [k] allocates
    one block, at the address [fresh (dom g)]. *)
Lemma rebuilt_step (h : heap) (seqs : loc) (ps rest : list loc)
    (strs : list (list ascii)) (rows : list TRow) (k : nat) (qs : list loc) (g : heap) :
  h !! seqs = Some (Ptrs (ps ++ rest)) →
  Forall2 (λ p s, string_at h p = Some s) ps strs →
  Forall2 row_over rows strs →
  k < length strs →
  rebuilt h seqs (ps ++ rest) (zip_with gapped rows strs) k qs g →
  ∃ g1,
    rebuild_row rows seqs (Z.of_nat k) g = Some (tt, g1) ∧
    rebuilt h seqs (ps ++ rest) (zip_with gapped rows strs) (S k) (qs ++ [fresh (dom g)]) g1 ∧
    dom g1 = {[fresh (dom g)]} ∪ dom g.
Proof.
  intros Hseqs Hstrs Hrows Hk Hinv.
  pose proof Hinv as (Hlen & Harr & Hold & Hnew).
  destruct (lookup_lt_is_Some_2 strs k) as [s Hs]; [lia|].
  destruct (Forall2_lookup_r _ _ _ _ _ Hstrs Hs) as (p & Hp & Hps).
  destruct (Forall2_lookup_r _ _ _ _ _ Hrows Hs) as (arow & Harow & Hover).
  destruct (string_at_block _ _ _ Hps) as (bs & Hblock & Hbs).
  assert (p ≠ seqs) as Hpseqs by congruence.
  assert ((ps ++ rest) !! k = Some p) as Hpk by (by apply lookup_app_l_Some).
  assert ((qs ++ drop k (ps ++ rest)) !! k = Some p) as Hqk.
  { rewrite lookup_app_r, Hlen, Nat.sub_diag, lookup_drop, Nat.add_0_r by lia. done. }
  pose proof (rebuild_row_spec rows seqs k arow _ p bs s g Harow Harr Hqk
                (Hold _ _ Hpseqs Hblock) Hbs Hover) as Hrow.
  set (q := fresh (dom g)) in *.
  assert (h !! q = None) as Hq.
  { destruct (h !! q) as [b|] eqn:E; [|done].
    destruct (decide (q = seqs)) as [Heq|Hne].
    - by destruct (fresh_not_live g seqs _ Harr).
    - by destruct (fresh_not_live g q b (Hold _ _ Hne E)). }
  eexists. split; [exact Hrow|]. split.
  - repeat split.
    + rewrite length_app. simpl. lia.
    + rewrite lookup_insert_eq. do 2 f_equal.
      rewrite insert_app_r_alt, Hlen, Nat.sub_diag by lia.
      rewrite (drop_S _ _ _ Hpk). simpl. by rewrite <- app_assoc.
    + intros l b Hl Hlb. rewrite lookup_insert_ne by done.
      rewrite lookup_insert_ne; [by apply Hold|].
      intros <-. congruence.
    + erewrite take_S_r by (by erewrite lookup_zip_with, Harow, Hs).
      apply Forall2_app.
      * eapply Forall2_impl; [exact Hnew|].
        intros q' o [Hq' Hfresh]. split; [|done].
        rewrite lookup_insert_ne by congruence.
        rewrite lookup_insert_ne; [done|].
        intros <-. unfold q in Hq'. by rewrite fresh_lookup in Hq'.
      * apply Forall2_cons. split; [|constructor]. split; [|done].
        rewrite lookup_insert_ne, lookup_insert_eq; [done|].
        intros Heq. apply (fresh_not_live g seqs _ Harr). by symmetry.
  - rewrite !dom_insert_L.
    assert (seqs ∈ dom g) as Hlive by (apply elem_of_dom; by eexists).
    apply set_eq. intros l. rewrite !elem_of_union, !elem_of_singleton. split.
    + intros [->|[->|Hl]]; [by right|by left|by right].
    + intros [->|Hl]; [right; by left|right; by right].
Qed.

Lemma rebuild_rows_alloc (h : heap) (seqs : loc) (ps rest : list loc)
    (strs : list (list ascii)) (rows : list TRow) :
  h !! seqs = Some (Ptrs (ps ++ rest)) →
  Forall2 (λ p s, string_at h p = Some s) ps strs →
  Forall2 row_over rows strs →
  ∀ (n k : nat) (qs : list loc) (g : heap),
    k + n = length strs →
    rebuilt h seqs (ps ++ rest) (zip_with gapped rows strs) k qs g →
    NoDup qs →
    dom g = dom h ∪ list_to_set qs →
    ∃ qs' g',
      for_from (Z.of_nat k) n (λ i _, rebuild_row rows seqs i) tt g = Some (tt, g') ∧
      rebuilt h seqs (ps ++ rest) (zip_with gapped rows strs) (k + n) qs' g' ∧
      NoDup qs' ∧
      dom g' = dom h ∪ list_to_set qs'.
Proof.
  intros Hseqs Hstrs Hrows.
  induction n as [|n IH]; intros k qs g Hk Hinv Hnodup Hdom.
  - exists qs, g. rewrite Nat.add_0_r. split; [done|]. split; [done|]. by split.
  - destruct (rebuilt_step h seqs ps rest strs rows k qs g Hseqs Hstrs Hrows)
      as (g1 & Hrow & Hinv1 & Hdom1); [lia|done|].
    assert (fresh (dom g) ∉ qs) as Hq.
    { intros Hin. apply (is_fresh (dom g)). rewrite Hdom at 2.
      rewrite elem_of_union, elem_of_list_to_set. by right. }
    destruct (IH (S k) (qs ++ [fresh (dom g)]) g1) as (qs' & g' & Hrun & Hinv' & Hnodup' & Hdom');
      [lia|done| | |].
    + apply NoDup_app. split; [done|]. split; [|apply NoDup_singleton].
      intros l Hl Hl'. apply list_elem_of_singleton in Hl'. by subst.
    + rewrite Hdom1, Hdom, list_to_set_app_L. simpl.
      apply set_eq. intros l.
      rewrite !elem_of_union, !elem_of_singleton, elem_of_empty. tauto.
    + exists qs', g'. rewrite for_from_S, Hrow.
      replace (Z.of_nat k + 1)%Z with (Z.of_nat (S k)) by lia.
      replace (k + S n) with (S k + n) by lia.
      split; [done|]. split; [done|]. by split.
Qed.

(** X4.  A call of [align] allocates exactly one new block per row and
    touches no other address: the [nseq] new pointers it stores are
    pairwise distinct, none of them was allocated before the call, the
    block of row i has one byte per column plus one for the terminator,
    and the allocated addresses after the call are those before it
    together with the new ones (nothing is freed).  The library's rows are
    taken as views of the inputs. *)
Theorem align_allocation (globalMsaAlignment : list (list Dna5) → list TRow)
    (convert : ascii → Dna5) (h : heap) (seqs : loc) (strs : list (list ascii)) :
  strings_at h seqs (length strs) = Some strs →
  Forall2 row_over (globalMsaAlignment (map (map convert) strs)) strs →
  ∃ h' qs,
    align globalMsaAlignment convert (Z.of_nat (length strs)) seqs h = Some (seqs, h') ∧
    pointers_at h' seqs (length strs) = Some qs ∧
    NoDup qs ∧
    Forall (λ q, q ∉ dom h) qs ∧
    dom h' = dom h ∪ list_to_set qs ∧
    Forall2 (λ q r, ∃ bs, h' !! q = Some (Bytes bs) ∧ length bs = S (length r))
      qs (globalMsaAlignment (map (map convert) strs)).
Proof.
  intros Hin Hrows.
  destruct (strings_at_split _ _ _ _ Hin) as (ps & rest & Hseqs & _ & Hstrs).
  pose proof (load_sources convert h seqs (ps ++ rest) Hseqs strs 0 []) as Hload.
  change (Z.of_nat 0) with 0%Z in Hload.
  destruct (rebuild_rows_alloc h seqs ps rest strs _ Hseqs Hstrs Hrows
              (length strs) 0 [] h) as (qs & h' & Hrun & Hinv & Hnodup & Hdom);
    [done| |constructor| |].
  { repeat split; by try constructor. }
  { simpl. by rewrite union_empty_r_L. }
  change (Z.of_nat 0) with 0%Z in Hrun. simpl in Hinv.
  destruct Hinv as (Hlen & Harr & _ & Hnew).
  exists h', qs. split; [|split; [|split; [done|split; [|split; [done|]]]]].
  - unfold align. rewrite decide_False by lia.
    rewrite Nat2Z.id. erewrite bind_Some; [|apply Hload].
    + cbv zeta. simpl app. unfold rebuild_rows. rewrite Nat2Z.id.
      by erewrite bind_Some by exact Hrun.
    + intros j s Hj. destruct (Forall2_lookup_r _ _ _ _ _ Hstrs Hj) as (p & Hp & Hps).
      exists p. split; [|done]. by apply lookup_app_l_Some.
  - unfold pointers_at. rewrite Harr.
    rewrite decide_True by (rewrite length_app; lia).
    by rewrite <- Hlen, take_app_length.
  - apply (Forall2_Forall_l _ _ _ _ Hnew), Forall_true.
    intros o q [_ Hfresh]. by apply not_elem_of_dom.
  - rewrite <- (outs_length _ _ Hrows), firstn_all in Hnew.
    clear Hin Hload Hrun Hlen Harr Hnodup Hdom Hstrs Hseqs.
    revert qs Hnew.
    induction Hrows as [|r s rows strs' [Hr _] _ IH]; intros qs Hnew; simpl in Hnew.
    + apply Forall2_nil_inv_r in Hnew as ->. constructor.
    + apply Forall2_cons_inv_r in Hnew as (q & qs' & [Hq _] & Hnew & ->).
      constructor; [|by apply IH].
      eexists. split; [exact Hq|].
      rewrite length_app, gapped_length by lia. simpl. lia.
Qed.

Lemma align_allocation_witness :
  strings_at sample_heap sample_seqs (length sample_strs) = Some sample_strs ∧
  Forall2 row_over (progressive_msa (map (map char_to_dna5) sample_strs)) sample_strs ∧
  ∃ h' qs,
    align progressive_msa char_to_dna5 (Z.of_nat (length sample_strs)) sample_seqs sample_heap
    = Some (sample_seqs, h') ∧
    pointers_at h' sample_seqs (length sample_strs) = Some qs ∧
    NoDup qs ∧
    Forall (λ q, q ∉ dom sample_heap) qs ∧
    dom h' = dom sample_heap ∪ list_to_set qs ∧
    Forall2 (λ q r, ∃ bs, h' !! q = Some (Bytes bs) ∧ length bs = S (length r))
      qs (progressive_msa (map (map char_to_dna5) sample_strs)).
Proof.
  assert (strings_at sample_heap sample_seqs (length sample_strs) = Some sample_strs) as H1
    by by_evaluation.
  assert (Forall2 row_over (progressive_msa (map (map char_to_dna5) sample_strs)) sample_strs)
    as H2 by by_decision.
  split; [exact H1|]. split; [exact H2|].
  exact (align_allocation progressive_msa char_to_dna5 sample_heap sample_seqs
           sample_strs H1 H2).
Defined.

(** ** A run of [main] *)

(** X5.  A run of [main] with [argc >= 1]: it exits with status 0 and
    prints one line per argument after the program name, in order, each
    the reconstructed row of that argument, whatever the program name is;
    and because the first loop shifts the pointers down by one, the array
    [argv] ends up holding the pointers to the new rows followed by the
    original pointer of the last argument (of the program name when there
    is no argument).  The library's rows are taken as views of the
    arguments. *)
Theorem main_run (globalMsaAlignment : list (list Dna5) → list TRow)
    (convert : ascii → Dna5) (h : heap) (argv p0 : loc) (ps : list loc)
    (prog : list ascii) (strs : list (list ascii)) :
  strings_at h argv (S (length strs)) = Some (prog :: strs) →
  pointers_at h argv (S (length strs)) = Some (p0 :: ps) →
  Forall2 row_over (globalMsaAlignment (map (map convert) strs)) strs →
  ∃ h' qs,
    main globalMsaAlignment convert (Z.of_nat (S (length strs))) argv h
    = Some ((0%Z, zip_with gapped (globalMsaAlignment (map (map convert) strs)) strs), h') ∧
    pointers_at h' argv (S (length strs)) = Some (qs ++ [List.last ps p0]) ∧
    length qs = length strs ∧
    Forall (λ q, h !! q = None) qs.
Proof.
  intros Hin Hptrs Hrows.
  destruct (strings_at_split _ _ _ _ Hin) as (ps' & rest & Hargv & _ & Hstrs').
  pose proof (Forall2_length _ _ _ Hstrs') as Hlen'. simpl in Hlen'.
  assert (ps' = p0 :: ps) as ->.
  { unfold pointers_at in Hptrs. rewrite Hargv in Hptrs.
    case_decide; [|done]. injection Hptrs as Hptrs.
    by rewrite <- Hlen', take_app_length in Hptrs. }
  apply Forall2_cons in Hstrs' as [_ Hstrs].
  pose proof (Forall2_length _ _ _ Hstrs) as Hlen.
  simpl in Hargv.
  set (h1 := <[argv := Ptrs (ps ++ List.last ps p0 :: rest)]> h).
  assert (Forall2 (λ p s, string_at h1 p = Some s) ps strs) as Hstrs1.
  { eapply Forall2_impl; [exact Hstrs|]. intros p s Hs. unfold string_at, h1.
    rewrite lookup_insert_ne; [done|]. intros <-.
    unfold string_at in Hs. by rewrite Hargv in Hs. }
  assert (h1 !! argv = Some (Ptrs (ps ++ List.last ps p0 :: rest))) as Hargv1
    by apply lookup_insert_eq.
  destruct (align_spec globalMsaAlignment convert h1 argv ps (List.last ps p0 :: rest)
              strs Hargv1 Hstrs1 Hrows) as (qs & h' & Hrun & Hinv).
  pose proof (outs_length _ _ Hrows) as Houts.
  pose proof Hinv as (Hqs & Harr & _ & Hnew).
  assert (strings_at h' argv (length strs)
          = Some (zip_with gapped (globalMsaAlignment (map (map convert) strs)) strs))
    as Hout.
  { rewrite <- Houts in Hinv |- *. eapply rebuilt_strings; [|exact Hinv].
    apply outs_NUL_free. by eapply strings_NUL_free. }
  destruct (strings_at_split _ _ _ _ Hout) as (qs0 & rest0 & Hargv' & Houtlen & Hqs0).
  rewrite <- Hlen, drop_app_length in Harr.
  exists h', qs. split; [|split; [|split; [done|]]].
  - unfold main.
    replace (Z.of_nat (S (length strs)) - 1)%Z with (Z.of_nat (length strs)) by lia.
    rewrite Nat2Z.id.
    erewrite bind_Some; cycle 1.
    { rewrite <- Hlen. apply (shift_loop argv rest ps [] p0 h Hargv). }
    simpl app. fold h1.
    erewrite bind_Some by exact Hrun.
    rewrite <- Houtlen.
    erewrite bind_Some; cycle 1.
    { apply (print_loop h' argv _ Hargv' _ 0%nat []).
      intros j o Hj. destruct (Forall2_lookup_r _ _ _ _ _ Hqs0 Hj) as (q & Hq & Hqo).
      exists q. split; [|done]. by apply lookup_app_l_Some. }
    done.
  - unfold pointers_at. rewrite Harr.
    rewrite decide_True by (rewrite length_app; simpl; lia).
    rewrite <- Hqs. replace (S (length qs)) with (length qs + 1) by lia.
    by rewrite (take_app_add' qs _ (length qs) 1).
  - apply (Forall2_Forall_l _ _ _ _ Hnew), Forall_true.
    intros o q [_ Hfresh]. unfold h1 in Hfresh.
    by apply lookup_insert_None in Hfresh as [? _].
Qed.

Lemma main_run_witness :
  strings_at foreign_heap foreign_argv (S (length foreign_strs))
  = Some (list_ascii_of_string "seqan_align" :: foreign_strs) ∧
  pointers_at foreign_heap foreign_argv (S (length foreign_strs))
  = Some [1; 2; 3]%positive ∧
  Forall2 row_over (progressive_msa (map (map char_to_dna5) foreign_strs)) foreign_strs ∧
  ∃ h' qs,
    main progressive_msa char_to_dna5 (Z.of_nat (S (length foreign_strs)))
      foreign_argv foreign_heap
    = Some ((0%Z, zip_with gapped (progressive_msa (map (map char_to_dna5) foreign_strs))
                    foreign_strs), h') ∧
    pointers_at h' foreign_argv (S (length foreign_strs))
    = Some (qs ++ [List.last [2; 3]%positive 1%positive]) ∧
    length qs = length foreign_strs ∧
    Forall (λ q, foreign_heap !! q = None) qs.
Proof.
  assert (strings_at foreign_heap foreign_argv (S (length foreign_strs))
          = Some (list_ascii_of_string "seqan_align" :: foreign_strs)) as H1
    by by_evaluation.
  assert (pointers_at foreign_heap foreign_argv (S (length foreign_strs))
          = Some [1; 2; 3]%positive) as H2 by by_evaluation.
  assert (Forall2 row_over (progressive_msa (map (map char_to_dna5) foreign_strs))
            foreign_strs) as H3 by by_decision.
  split; [exact H1|]. split; [exact H2|]. split; [exact H3|].
  exact (main_run progressive_msa char_to_dna5 foreign_heap foreign_argv 1%positive
           [2; 3]%positive (list_ascii_of_string "seqan_align") foreign_strs H1 H2 H3).
Defined.

(** ** The bounds of one row *)

Lemma gapped_app (pre suf : TRow) (s1 s2 : list ascii) :
  ungapped_len pre = length s1 →
  gapped (pre ++ suf) (s1 ++ s2) = gapped pre s1 ++ gapped suf s2.
Proof.
  revert s1. induction pre as [|[d|] pre IH]; intros s1 Hlen; simpl in *.
  - by destruct s1.
  - destruct s1 as [|c s1]; simpl in *; [lia|]. f_equal. apply IH. lia.
  - f_equal. by apply IH.
Qed.

Lemma gapped_app_l (r : TRow) (s t : list ascii) :
  ungapped_len r ≤ length s → gapped r (s ++ t) = gapped r s.
Proof.
  revert s. induction r as [|[d|] r IH]; intros s Hlen; simpl in *; [done| |].
  - destruct s as [|c s]; simpl in *; [lia|]. f_equal. apply IH. lia.
  - f_equal. by apply IH.
Qed.

Lemma strip_gaps_gapped_prefix (r : TRow) (s : list ascii) :
  ungapped_len r ≤ length s → gap_char ∉ s →
  strip_gaps (gapped r s) = take (ungapped_len r) s.
Proof.
  intros Hlen Hgap.
  rewrite <- (take_drop (ungapped_len r) s) at 1.
  rewrite gapped_app_l by (rewrite length_take; lia).
  apply strip_gaps_gapped; [rewrite length_take; lia|].
  intros Hin. apply Hgap. apply elem_of_take in Hin as (i & Hi & _).
  apply list_elem_of_lookup. by exists i.
Qed.

Lemma ungapped_len_app (pre suf : TRow) :
  ungapped_len (pre ++ suf) = ungapped_len pre + ungapped_len suf.
Proof. induction pre as [|[d|] pre IH]; simpl; lia. Qed.

(** The column at which a row takes its symbol number [n]. *)
Lemma row_split_at_symbol (r : TRow) :
  ∀ n : nat, n < ungapped_len r →
    ∃ pre d suf, r = pre ++ Some d :: suf ∧ ungapped_len pre = n.
Proof.
  induction r as [|[d|] r IH]; intros n Hn; simpl in *; [lia| |].
  - destruct n as [|n]; [by exists [], d, r|].
    destruct (IH n) as (pre & d' & suf & -> & Hpre); [lia|].
    exists (Some d :: pre), d', suf. simpl. by rewrite Hpre.
  - destruct (IH n Hn) as (pre & d' & suf & -> & Hpre).
    by exists (None :: pre), d', suf.
Qed.

Lemma for_from_app {S : Type} (n m : nat) (body : Z → S → M S) :
  ∀ (i : Z) (s : S) (h : heap),
    for_from i (n + m) body s h
    = match for_from i n body s h with
      | Some (s', h') => for_from (i + Z.of_nat n) m body s' h'
      | None => None
      end.
Proof.
  induction n as [|n IH]; intros i s h.
  - simpl. unfold ret. by rewrite Z.add_0_r.
  - change (Datatypes.S n + m) with (Datatypes.S (n + m)). rewrite !for_from_S.
    destruct (body i s h) as [[s' h']|]; [|done].
    rewrite IH. by replace (i + 1 + Z.of_nat n)%Z with (i + Z.of_nat (Datatypes.S n))%Z by lia.
Qed.

(** One column changes the offset by the gap it meets, and no block other
    than the new one. *)
Lemma column_step_inv (arow : TRow) (seqs : loc) (i : Z) (q : loc) (j off off' : Z)
    (h h' : heap) :
  column arow seqs i q j off h = Some (off', h') →
  off' = (if isGap arow j then off - 1 else off)%Z ∧
  ∀ l, l ≠ q → h' !! l = h !! l.
Proof.
  unfold column. destruct (isGap arow j).
  - unfold bind, store_char, ret.
    destruct (h !! q) as [[bs|]|]; try done. case_decide; [|done].
    intros [= <- <-]. split; [done|]. intros l Hl. by rewrite lookup_insert_ne.
  - unfold bind, load_ptr, load_char, store_char, ret.
    destruct (h !! seqs) as [[|arr]|]; try done. case_decide; [|done].
    destruct (arr !! Z.to_nat i) as [p|]; [|done].
    destruct (h !! p) as [[bs|]|]; try done. case_decide; [|done].
    destruct (bs !! Z.to_nat (j + off)) as [c|]; [|done].
    destruct (h !! q) as [[bq|]|]; try done. case_decide; [|done].
    intros [= <- <-]. split; [done|]. intros l Hl. by rewrite lookup_insert_ne.
Qed.

Lemma column_prefix_inv (seqs : loc) (i : Z) (q : loc) (rest : TRow) :
  ∀ (mid pre : TRow) (off off' : Z) (h h' : heap),
    for_from (Z.of_nat (length pre)) (length mid)
      (column (pre ++ mid ++ rest) seqs i q) off h = Some (off', h') →
    off' = (off - Z.of_nat (length mid - ungapped_len mid))%Z ∧
    ∀ l, l ≠ q → h' !! l = h !! l.
Proof.
  induction mid as [|x mid IH]; intros pre off off' h h' Hrun.
  - simpl in Hrun. injection Hrun as <- <-. split; [simpl; lia|done].
  - simpl length in Hrun. rewrite for_from_S in Hrun.
    destruct (column (pre ++ (x :: mid) ++ rest) seqs i q (Z.of_nat (length pre)) off h)
      as [[off1 h1]|] eqn:Hstep; [|done].
    apply column_step_inv in Hstep as [Hoff1 Hframe1].
    rewrite <- app_comm_cons, isGap_middle in Hoff1.
    assert (pre ++ (x :: mid) ++ rest = (pre ++ [x]) ++ mid ++ rest) as Erow
      by (by rewrite <- app_assoc).
    rewrite Erow in Hrun.
    replace (Z.of_nat (length pre) + 1)%Z with (Z.of_nat (length (pre ++ [x]))) in Hrun
      by (rewrite length_app; simpl; lia).
    apply IH in Hrun as [Hoff' Hframe'].
    pose proof (ungapped_len_le mid) as Hle.
    split.
    + destruct x as [d|]; simpl; lia.
    + intros l Hl. by rewrite Hframe', Hframe1.
Qed.

(** A row whose symbols all lie inside the block of its string: the new
    block holds the row with the bytes of that block in its columns. *)
Lemma rebuild_row_bytes (rows : list TRow) (seqs : loc) (i : nat) (arow : TRow)
    (arr : list loc) (p : loc) (bs : list ascii) (g : heap) :
  rows !! i = Some arow →
  g !! seqs = Some (Ptrs arr) → arr !! i = Some p →
  g !! p = Some (Bytes bs) →
  (Z.of_nat (length arow) ≤ INT_MAX)%Z →
  ungapped_len arow ≤ length bs →
  rebuild_row rows seqs (Z.of_nat i) g
  = Some (tt, <[seqs := Ptrs (<[i := fresh (dom g)]> arr)]>
                (<[fresh (dom g) := Bytes (gapped arow bs ++ [NUL])]> g)).
Proof.
  intros Hrow Hseqs Harr Hp Hmax Hlen.
  set (q := fresh (dom g)).
  assert (q ≠ seqs) as Hqs by (eapply fresh_not_live; done).
  assert (q ≠ p) as Hqp by (eapply fresh_not_live; done).
  unfold rebuild_row, bind, row, malloc; cbv beta.
  rewrite Nat2Z.id, Hrow. cbv zeta. fold q.
  rewrite to_int_small by lia.
  replace (Z.to_nat (Z.of_nat (length arow) + 1)) with (S (length arow)) by lia.
  rewrite Nat2Z.id.
  destruct (column_loop arow seqs (Z.of_nat i) q p arr bs g
              Hseqs ltac:(lia) ltac:(by rewrite Nat2Z.id) Hp Hqs Hqp
              arow [] bs [] [] (replicate (S (length arow)) NUL))
    as [offset Hloop]; try done.
  - exists []. by rewrite app_nil_r.
  - rewrite length_replicate. lia.
  - change (Z.of_nat (length [])) with 0%Z in Hloop.
    change (0 - 0)%Z with 0%Z in Hloop. cbn [app length] in Hloop.
    rewrite Hloop, drop_replicate.
    replace (S (length arow) - length arow)%nat with 1%nat by lia.
    rewrite <- (gapped_length arow bs) at 1 by lia.
    simpl replicate. rewrite store_char_insert, app_nil_r.
    unfold store_ptr. rewrite lookup_insert_ne, Hseqs by done.
    rewrite Nat2Z.id, decide_True; [done|].
    split; [lia|]. by eapply lookup_lt_Some.
Qed.

(** A row with more symbols than the block of its string has bytes: the
    read of the first symbol beyond the block fails. *)
Lemma rebuild_row_out_of_bounds (rows : list TRow) (seqs : loc) (i : nat) (arow : TRow)
    (arr : list loc) (p : loc) (bs : list ascii) (g : heap) :
  rows !! i = Some arow →
  g !! seqs = Some (Ptrs arr) → arr !! i = Some p →
  g !! p = Some (Bytes bs) →
  (Z.of_nat (length arow) ≤ INT_MAX)%Z →
  length bs < ungapped_len arow →
  rebuild_row rows seqs (Z.of_nat i) g = None.
Proof.
  intros Hrow Hseqs Harr Hp Hmax Hlen.
  destruct (row_split_at_symbol arow (length bs) Hlen) as (pre & d & suf & -> & Hpre).
  set (q := fresh (dom g)).
  assert (q ≠ seqs) as Hqs by (eapply fresh_not_live; done).
  assert (q ≠ p) as Hqp by (eapply fresh_not_live; done).
  unfold rebuild_row, bind, row, malloc; cbv beta.
  rewrite Nat2Z.id, Hrow. cbv zeta. fold q.
  rewrite to_int_small by lia. rewrite Nat2Z.id.
  rewrite length_app. simpl length.
  rewrite for_from_app.
  match goal with |- context [for_from 0 (length pre) ?body 0%Z ?g1] =>
    destruct (for_from 0 (length pre) body 0%Z g1) as [[off1 h1]|] eqn:Hfirst; [|done]
  end.
  apply (column_prefix_inv seqs (Z.of_nat i) q (Some d :: suf) pre [] 0%Z off1 _ h1)
    in Hfirst as [Hoff Hframe].
  rewrite for_from_S. unfold column at 1.
  change (0 + Z.of_nat (length pre))%Z with (Z.of_nat (length pre)).
  rewrite isGap_middle.
  unfold bind, load_ptr, load_char; cbv beta.
  rewrite (Hframe seqs), lookup_insert_ne, Hseqs by done.
  rewrite decide_True, Nat2Z.id, Harr by lia.
  rewrite (Hframe p), lookup_insert_ne, Hp by done.
  pose proof (ungapped_len_le pre) as Hle.
  rewrite decide_True by lia.
  replace (Z.to_nat (Z.of_nat (length pre) + off1)) with (length bs) by lia.
  by rewrite lookup_ge_None_2 by lia.
Qed.

(** X6.  The reads of [rebuild_row] (the body of the loop over the rows
    of [align]) are unchecked: for a row of at most [INT_MAX] columns the
    call stays inside the block of its string exactly when the row has no
    more non-gap columns than that block has bytes.  It then stores in
    [seqs[i]] a new block holding the row, with the bytes of the block in
    the non-gap columns, and a terminator; otherwise it reads beyond the
    block. *)
Theorem rebuild_row_bounds (rows : list TRow) (seqs : loc) (i : nat) (arow : TRow)
    (arr : list loc) (p : loc) (bs : list ascii) (g : heap) :
  rows !! i = Some arow →
  g !! seqs = Some (Ptrs arr) → arr !! i = Some p →
  g !! p = Some (Bytes bs) →
  (Z.of_nat (length arow) ≤ INT_MAX)%Z →
  (is_Some (rebuild_row rows seqs (Z.of_nat i) g) ↔ ungapped_len arow ≤ length bs) ∧
  (ungapped_len arow ≤ length bs →
   rebuild_row rows seqs (Z.of_nat i) g
   = Some (tt, <[seqs := Ptrs (<[i := fresh (dom g)]> arr)]>
                 (<[fresh (dom g) := Bytes (gapped arow bs ++ [NUL])]> g))) ∧
  (length bs < ungapped_len arow → rebuild_row rows seqs (Z.of_nat i) g = None).
Proof.
  intros Hrow Hseqs Harr Hp Hmax.
  split; [|split].
  - split.
    + intros [r Hr]. destruct (decide (ungapped_len arow ≤ length bs)) as [|Hgt]; [done|].
      rewrite (rebuild_row_out_of_bounds rows seqs i arow arr p bs g) in Hr; [done..|lia].
    + intros Hle. eexists. by apply (rebuild_row_bytes rows seqs i arow arr p bs g).
  - intros Hle. by apply (rebuild_row_bytes rows seqs i arow arr p bs g).
  - intros Hgt. by apply (rebuild_row_out_of_bounds rows seqs i arow arr p bs g).
Qed.

Lemma rebuild_row_bounds_witness :
  [overlong_row] !! 0 = Some overlong_row ∧
  sample_heap !! sample_seqs = Some (Ptrs [1; 2]%positive) ∧
  [1; 2]%positive !! 0 = Some 1%positive ∧
  sample_heap !! 1%positive = Some (Bytes (list_ascii_of_string "ACGT" ++ [NUL])) ∧
  (Z.of_nat (length overlong_row) ≤ INT_MAX)%Z ∧
  length (list_ascii_of_string "ACGT" ++ [NUL]) < ungapped_len overlong_row ∧
  rebuild_row [overlong_row] sample_seqs (Z.of_nat 0) sample_heap = None.
Proof.
  assert ([overlong_row] !! 0 = Some overlong_row) as H1 by by_evaluation.
  assert (sample_heap !! sample_seqs = Some (Ptrs [1; 2]%positive)) as H2 by by_evaluation.
  assert ([1; 2]%positive !! 0 = Some 1%positive) as H3 by by_evaluation.
  assert (sample_heap !! 1%positive = Some (Bytes (list_ascii_of_string "ACGT" ++ [NUL])))
    as H4 by by_evaluation.
  assert (Z.of_nat (length overlong_row) ≤ INT_MAX)%Z as H5 by by_evaluation.
  assert (length (list_ascii_of_string "ACGT" ++ [NUL]) < ungapped_len overlong_row) as H6
    by by_evaluation.
  split; [exact H1|]. split; [exact H2|]. split; [exact H3|]. split; [exact H4|].
  split; [exact H5|]. split; [exact H6|].
  exact (proj2 (proj2 (rebuild_row_bounds [overlong_row] sample_seqs 0 overlong_row
                         [1; 2]%positive 1%positive (list_ascii_of_string "ACGT" ++ [NUL])
                         sample_heap H1 H2 H3 H4 H5)) H6).
Defined.

(** X7.  A row that covers fewer symbols than its string has: the call of
    [rebuild_row] succeeds, the new string has one character per column,
    and without its gap symbols it is the covered beginning of the string;
    the symbols after it are dropped without notice.  The string holds no
    '-' of its own. *)
Theorem rebuild_row_clipped (rows : list TRow) (seqs : loc) (i : nat) (arow : TRow)
    (arr : list loc) (p : loc) (s : list ascii) (g : heap) :
  rows !! i = Some arow →
  g !! seqs = Some (Ptrs arr) → arr !! i = Some p →
  string_at g p = Some s →
  (Z.of_nat (length arow) ≤ INT_MAX)%Z →
  ungapped_len arow ≤ length s →
  gap_char ∉ s →
  ∃ g' q out,
    rebuild_row rows seqs (Z.of_nat i) g = Some (tt, g') ∧
    g' !! seqs = Some (Ptrs (<[i := q]> arr)) ∧
    string_at g' q = Some out ∧
    length out = length arow ∧
    strip_gaps out = take (ungapped_len arow) s.
Proof.
  intros Hrow Hseqs Harr Hs Hmax Hlen Hgap.
  apply string_at_block in Hs as (bs & Hp & Hbs).
  apply c_str_Some in Hbs as [Hnul [tail ->]].
  eexists _, (fresh (dom g)), (gapped arow s).
  split; [|split; [|split; [|split]]].
  - apply (rebuild_row_bytes rows seqs i arow arr p (s ++ NUL :: tail) g); try done.
    rewrite length_app. lia.
  - by rewrite lookup_insert_eq.
  - unfold string_at.
    assert (seqs ≠ fresh (dom g)) as Hne.
    { intros Heq. apply (fresh_not_live g seqs (Ptrs arr)); [done|by symmetry]. }
    rewrite lookup_insert_ne by done.
    rewrite lookup_insert_eq, gapped_app_l by done.
    apply c_str_app. by apply gapped_no_NUL.
  - by apply gapped_length.
  - by apply strip_gaps_gapped_prefix.
Qed.

Lemma rebuild_row_clipped_witness :
  [clipped_row] !! 0 = Some clipped_row ∧
  sample_heap !! sample_seqs = Some (Ptrs [1; 2]%positive) ∧
  [1; 2]%positive !! 0 = Some 1%positive ∧
  string_at sample_heap 1%positive = Some (list_ascii_of_string "ACGT") ∧
  (Z.of_nat (length clipped_row) ≤ INT_MAX)%Z ∧
  ungapped_len clipped_row ≤ length (list_ascii_of_string "ACGT") ∧
  (gap_char ∉ list_ascii_of_string "ACGT") ∧
  ∃ g' q out,
    rebuild_row [clipped_row] sample_seqs (Z.of_nat 0) sample_heap = Some (tt, g') ∧
    g' !! sample_seqs = Some (Ptrs (<[0 := q]> [1; 2]%positive)) ∧
    string_at g' q = Some out ∧
    length out = length clipped_row ∧
    strip_gaps out = take (ungapped_len clipped_row) (list_ascii_of_string "ACGT").
Proof.
  assert ([clipped_row] !! 0 = Some clipped_row) as H1 by by_evaluation.
  assert (sample_heap !! sample_seqs = Some (Ptrs [1; 2]%positive)) as H2 by by_evaluation.
  assert ([1; 2]%positive !! 0 = Some 1%positive) as H3 by by_evaluation.
  assert (string_at sample_heap 1%positive = Some (list_ascii_of_string "ACGT")) as H4
    by by_evaluation.
  assert (Z.of_nat (length clipped_row) ≤ INT_MAX)%Z as H5 by by_evaluation.
  assert (ungapped_len clipped_row ≤ length (list_ascii_of_string "ACGT")) as H6
    by by_evaluation.
  assert (gap_char ∉ list_ascii_of_string "ACGT") as H7 by by_decision.
  split; [exact H1|]. split; [exact H2|]. split; [exact H3|]. split; [exact H4|].
  split; [exact H5|]. split; [exact H6|]. split; [exact H7|].
  exact (rebuild_row_clipped [clipped_row] sample_seqs 0 clipped_row [1; 2]%positive
           1%positive (list_ascii_of_string "ACGT") sample_heap H1 H2 H3 H4 H5 H6 H7).
Defined.

(** X8.  A row with more non-gap columns than its string has characters,
    but no more than the block of the string has bytes: [rebuild_row]
    does not fail, it copies the terminator of the string into the new
    block.  The string read back at the new pointer stops there: it is
    shorter than the row, and without its gap symbols it is the whole
    string. *)
Theorem rebuild_row_copies_terminator (rows : list TRow) (seqs : loc) (i : nat)
    (arow : TRow) (arr : list loc) (p : loc) (bs s : list ascii) (g : heap) :
  rows !! i = Some arow →
  g !! seqs = Some (Ptrs arr) → arr !! i = Some p →
  g !! p = Some (Bytes bs) → c_str bs = Some s →
  (Z.of_nat (length arow) ≤ INT_MAX)%Z →
  length s < ungapped_len arow → ungapped_len arow ≤ length bs →
  gap_char ∉ s →
  ∃ g' q out,
    rebuild_row rows seqs (Z.of_nat i) g = Some (tt, g') ∧
    g' !! seqs = Some (Ptrs (<[i := q]> arr)) ∧
    string_at g' q = Some out ∧
    length out < length arow ∧
    strip_gaps out = s.
Proof.
  intros Hrow Hseqs Harr Hp Hbs Hmax Hlt Hle Hgap.
  destruct (c_str_Some _ _ Hbs) as [Hnul [tail Ebs]].
  destruct (row_split_at_symbol arow (length s) Hlt) as (pre & d & suf & Erow & Hpre).
  exists (<[seqs := Ptrs (<[i := fresh (dom g)]> arr)]>
            (<[fresh (dom g) := Bytes (gapped arow bs ++ [NUL])]> g)),
         (fresh (dom g)), (gapped pre s).
  split; [|split; [|split; [|split]]].
  - by apply (rebuild_row_bytes rows seqs i arow arr p bs g).
  - by rewrite lookup_insert_eq.
  - unfold string_at.
    assert (seqs ≠ fresh (dom g)) as Hne.
    { intros Heq. apply (fresh_not_live g seqs (Ptrs arr)); [done|by symmetry]. }
    rewrite lookup_insert_ne by done.
    rewrite lookup_insert_eq, Erow, Ebs, gapped_app by done.
    simpl. rewrite <- app_assoc. simpl.
    apply c_str_app. by apply gapped_no_NUL.
  - rewrite gapped_length by lia. rewrite Erow, length_app. simpl. lia.
  - by apply strip_gaps_gapped.
Qed.

Lemma rebuild_row_copies_terminator_witness :
  [reaching_row] !! 0 = Some reaching_row ∧
  sample_heap !! sample_seqs = Some (Ptrs [1; 2]%positive) ∧
  [1; 2]%positive !! 0 = Some 1%positive ∧
  sample_heap !! 1%positive = Some (Bytes (list_ascii_of_string "ACGT" ++ [NUL])) ∧
  c_str (list_ascii_of_string "ACGT" ++ [NUL]) = Some (list_ascii_of_string "ACGT") ∧
  (Z.of_nat (length reaching_row) ≤ INT_MAX)%Z ∧
  length (list_ascii_of_string "ACGT") < ungapped_len reaching_row ∧
  ungapped_len reaching_row ≤ length (list_ascii_of_string "ACGT" ++ [NUL]) ∧
  (gap_char ∉ list_ascii_of_string "ACGT") ∧
  ∃ g' q out,
    rebuild_row [reaching_row] sample_seqs (Z.of_nat 0) sample_heap = Some (tt, g') ∧
    g' !! sample_seqs = Some (Ptrs (<[0 := q]> [1; 2]%positive)) ∧
    string_at g' q = Some out ∧
    length out < length reaching_row ∧
    strip_gaps out = list_ascii_of_string "ACGT".
Proof.
  assert ([reaching_row] !! 0 = Some reaching_row) as H1 by by_evaluation.
  assert (sample_heap !! sample_seqs = Some (Ptrs [1; 2]%positive)) as H2 by by_evaluation.
  assert ([1; 2]%positive !! 0 = Some 1%positive) as H3 by by_evaluation.
  assert (sample_heap !! 1%positive = Some (Bytes (list_ascii_of_string "ACGT" ++ [NUL])))
    as H4 by by_evaluation.
  assert (c_str (list_ascii_of_string "ACGT" ++ [NUL]) = Some (list_ascii_of_string "ACGT"))
    as H5 by by_evaluation.
  assert (Z.of_nat (length reaching_row) ≤ INT_MAX)%Z as H6 by by_evaluation.
  assert (length (list_ascii_of_string "ACGT") < ungapped_len reaching_row) as H7
    by by_evaluation.
  assert (ungapped_len reaching_row ≤ length (list_ascii_of_string "ACGT" ++ [NUL])) as H8
    by by_evaluation.
  assert (gap_char ∉ list_ascii_of_string "ACGT") as H9 by by_decision.
  split; [exact H1|]. split; [exact H2|]. split; [exact H3|]. split; [exact H4|].
  split; [exact H5|]. split; [exact H6|]. split; [exact H7|]. split; [exact H8|].
  split; [exact H9|].
  exact (rebuild_row_copies_terminator [reaching_row] sample_seqs 0 reaching_row
           [1; 2]%positive 1%positive (list_ascii_of_string "ACGT" ++ [NUL])
           (list_ascii_of_string "ACGT") sample_heap H1 H2 H3 H4 H5 H6 H7 H8 H9).
Defined.

(** ** When [align] stays inside its strings *)




